(** * cssSelectorBuilder (src/05-objects-tasks.js): a shallow embedding

    The builder is one JavaScript object, [cssSelectorBuilder], whose methods
    read and write properties of [this].  Selectors are ordinary objects whose
    prototype is [cssSelectorBuilder]; the fragment methods are also called on
    [cssSelectorBuilder] itself to start a chain, and then [this] is the shared
    prototype.  The model therefore keeps an explicit heap: the builder object,
    the objects created with [Object.setPrototypeOf(obj, cssSelectorBuilder)],
    and the arrays created by [[]].  A property read walks the prototype chain
    (own property first, then the builder's); a property write always creates
    or overwrites an own property of the receiver. *)

From Stdlib Require Import String List Arith Lia Bool.
Import ListNotations.
Open Scope string_scope.

(** ** Values, objects and the heap *)

(** The seven data properties the methods use. *)
Inductive field : Type :=
| tag | myId | classes | attribute | pseudoClasses | pseudoElem | combination.

(** The JavaScript values that reach those properties: [undefined], a string,
    or a reference to an array of strings. *)
Inductive value : Type :=
| VUndef
| VStr (s : string)
| VArr (a : nat).

(** The own properties of an object.  [None] is an absent property (the read
    continues in the prototype); [Some VUndef] is a property that is present
    and holds [undefined] (the read stops there). *)
Record object : Type := mkObject {
  o_tag : option value;
  o_myId : option value;
  o_classes : option value;
  o_attribute : option value;
  o_pseudoClasses : option value;
  o_pseudoElem : option value;
  o_combination : option value
}.

(** [{}] *)
Definition empty_object : object :=
  mkObject None None None None None None None.

Definition own (o : object) (f : field) : option value :=
  match f with
  | tag => o_tag o
  | myId => o_myId o
  | classes => o_classes o
  | attribute => o_attribute o
  | pseudoClasses => o_pseudoClasses o
  | pseudoElem => o_pseudoElem o
  | combination => o_combination o
  end.

Definition put (o : object) (f : field) (v : value) : object :=
  match f with
  | tag => mkObject (Some v) (o_myId o) (o_classes o) (o_attribute o) (o_pseudoClasses o) (o_pseudoElem o) (o_combination o)
  | myId => mkObject (o_tag o) (Some v) (o_classes o) (o_attribute o) (o_pseudoClasses o) (o_pseudoElem o) (o_combination o)
  | classes => mkObject (o_tag o) (o_myId o) (Some v) (o_attribute o) (o_pseudoClasses o) (o_pseudoElem o) (o_combination o)
  | attribute => mkObject (o_tag o) (o_myId o) (o_classes o) (Some v) (o_pseudoClasses o) (o_pseudoElem o) (o_combination o)
  | pseudoClasses => mkObject (o_tag o) (o_myId o) (o_classes o) (o_attribute o) (Some v) (o_pseudoElem o) (o_combination o)
  | pseudoElem => mkObject (o_tag o) (o_myId o) (o_classes o) (o_attribute o) (o_pseudoClasses o) (Some v) (o_combination o)
  | combination => mkObject (o_tag o) (o_myId o) (o_classes o) (o_attribute o) (o_pseudoClasses o) (o_pseudoElem o) (Some v)
  end.

(** A reference to an object: [cssSelectorBuilder] itself, or the [n]-th object
    whose prototype was set to [cssSelectorBuilder]. *)
Inductive ref : Type :=
| Builder
| Obj (n : nat).

Record heap : Type := mkHeap {
  builder : object;
  objs : list object;
  arrays : list (list string)
}.

(** The heap when the module is loaded: the builder has methods only. *)
Definition initial : heap := mkHeap empty_object [] [].

Fixpoint update {A : Type} (n : nat) (x : A) (l : list A) : list A :=
  match l, n with
  | [], _ => []
  | _ :: t, O => x :: t
  | y :: t, S m => y :: update m x t
  end.

Definition allocated (h : heap) (r : ref) : Prop :=
  match r with
  | Builder => True
  | Obj n => n < length (objs h)
  end.

Definition own_of (h : heap) (r : ref) (f : field) : option value :=
  match r with
  | Builder => own (builder h) f
  | Obj n => match nth_error (objs h) n with
             | Some o => own o f
             | None => None
             end
  end.

(** [r.f]: the own property if there is one, else the builder's, else
    [undefined] ([Object.prototype] has none of the seven names). *)
Definition get (h : heap) (r : ref) (f : field) : value :=
  match own_of h r f with
  | Some v => v
  | None => match own (builder h) f with
            | Some v => v
            | None => VUndef
            end
  end.

(** [r.f = v]: an own property of [r], whatever the prototype holds. *)
Definition assign (h : heap) (r : ref) (f : field) (v : value) : heap :=
  match r with
  | Builder => mkHeap (put (builder h) f v) (objs h) (arrays h)
  | Obj n => match nth_error (objs h) n with
             | Some o => mkHeap (builder h) (update n (put o f v) (objs h)) (arrays h)
             | None => h
             end
  end.

Definition array_of (h : heap) (a : nat) : option (list string) :=
  nth_error (arrays h) a.

(** [if (v)]: ToBoolean.  The empty string and [undefined] are falsy, an array
    is an object and so truthy even when empty. *)
Definition truthy (v : value) : bool :=
  match v with
  | VUndef => false
  | VStr s => negb (String.eqb s EmptyString)
  | VArr _ => true
  end.

Definition is_undefined (v : value) : bool :=
  match v with
  | VUndef => true
  | _ => false
  end.

(** ** Errors and the monad of the methods *)

(** What a method can throw: [new Error(message)], or the [TypeError] of the
    engine when a property that is not a function is called. *)
Inductive error : Type :=
| Error (message : string)
| TypeError.

Definition DuplicateFragment : error :=
  Error "Element, id and pseudo-element should not occur more then one time inside the selector".

Definition OrderViolation : error :=
  Error "Selector parts should be arranged in the following order: element, id, class, attribute, pseudo-class, pseudo-element".

Inductive result (A : Type) : Type :=
| Ok (x : A)
| Throw (e : error).
Arguments Ok {A} x.
Arguments Throw {A} e.

(** A method is a function of the heap that returns or throws; the writes made
    before a [throw] stay in the heap. *)
Definition M (A : Type) : Type := heap -> result A * heap.

Definition ret {A : Type} (x : A) : M A := fun h => (Ok x, h).

Definition throw {A : Type} (e : error) : M A := fun h => (Throw e, h).

Definition bind {A B : Type} (m : M A) (k : A -> M B) : M B :=
  fun h => match m h with
           | (Ok x, h') => k x h'
           | (Throw e, h') => (Throw e, h')
           end.

Declare Scope js_scope.
Delimit Scope js_scope with js.
Notation "x <- m ;; k" := (bind m (fun x => k))
  (at level 100, m at next level, right associativity) : js_scope.
Notation "m ;; k" := (bind m (fun _ => k))
  (at level 100, right associativity) : js_scope.
Open Scope js_scope.

Definition read (r : ref) (f : field) : M value :=
  fun h => (Ok (get h r f), h).

Definition write (r : ref) (f : field) (v : value) : M unit :=
  fun h => (Ok tt, assign h r f v).

(** The heap after [{}] with its prototype set to [cssSelectorBuilder]: the new
    object is the last one. *)
Definition alloc_obj (h : heap) : heap :=
  mkHeap (builder h) (objs h ++ [empty_object])%list (arrays h).

(** The heap after [[]]: the new array is the last one. *)
Definition alloc_arr (h : heap) : heap :=
  mkHeap (builder h) (objs h) (arrays h ++ [[]])%list.

(** The heap after the array [a], which held [l], has received [s]. *)
Definition push_arr (h : heap) (a : nat) (l : list string) (s : string) : heap :=
  mkHeap (builder h) (objs h) (update a (l ++ [s])%list (arrays h)).

(** [let obj = {}; Object.setPrototypeOf(obj, cssSelectorBuilder);] *)
Definition fresh : M ref :=
  fun h => (Ok (Obj (length (objs h))), alloc_obj h).

(** [[]] *)
Definition new_array : M value :=
  fun h => (Ok (VArr (length (arrays h))), alloc_arr h).

(** [v.push(s)]: only arrays have the method. *)
Definition push (v : value) (s : string) : M unit :=
  fun h => match v with
           | VArr a => match array_of h a with
                       | Some l => (Ok tt, push_arr h a l s)
                       | None => (Throw TypeError, h)
                       end
           | _ => (Throw TypeError, h)
           end.

(** [v.join(sep)]: only arrays have the method. *)
Definition join (v : value) (sep : string) : M string :=
  fun h => match v with
           | VArr a => match array_of h a with
                       | Some l => (Ok (String.concat sep l), h)
                       | None => (Throw TypeError, h)
                       end
           | _ => (Throw TypeError, h)
           end.

(** ToString, as string concatenation and template literals apply it: an array
    prints as its elements joined by commas. *)
Definition to_string (v : value) : M string :=
  fun h => match v with
           | VUndef => (Ok "undefined", h)
           | VStr s => (Ok s, h)
           | VArr a => match array_of h a with
                       | Some l => (Ok (String.concat "," l), h)
                       | None => (Throw TypeError, h)
                       end
           end.

(** ** The methods of [cssSelectorBuilder] *)

Module cssSelectorBuilder.

Definition element (this : ref) (value : string) : M ref :=
  t <- read this tag ;;
  if truthy t then throw DuplicateFragment else
  obj <- fresh ;;
  i <- read this myId ;;
  if truthy i then throw OrderViolation else
  write obj tag (VStr value) ;;
  ret obj.

Definition id (this : ref) (value : string) : M ref :=
  pe <- read this pseudoElem ;;
  if negb (is_undefined pe) then throw OrderViolation else
  i <- read this myId ;;
  if truthy i then throw DuplicateFragment else
  c <- read this classes ;;
  if negb (is_undefined c) then throw OrderViolation else
  pc <- read this pseudoClasses ;;
  if negb (is_undefined pc) then throw OrderViolation else
  obj <- fresh ;;
  t <- read this tag ;;
  let obj := if truthy t then this else obj in
  write obj myId (VStr value) ;;
  ret obj.

Definition class (this : ref) (value : string) : M ref :=
  a <- read this attribute ;;
  if truthy a then throw OrderViolation else
  c <- read this classes ;;
  (if is_undefined c then (arr <- new_array ;; write this classes arr) else ret tt) ;;
  c' <- read this classes ;;
  push c' value ;;
  write this pseudoClasses VUndef ;;
  ret this.

Definition attr (this : ref) (value : string) : M ref :=
  pc <- read this pseudoClasses ;;
  if negb (is_undefined pc) then throw OrderViolation else
  write this attribute (VStr ("[" ++ value ++ "]")) ;;
  write this pseudoClasses VUndef ;;
  write this pseudoElem VUndef ;;
  ret this.

Definition pseudoClass (this : ref) (value : string) : M ref :=
  pe <- read this pseudoElem ;;
  if truthy pe then (write this pseudoElem VUndef ;; throw OrderViolation) else
  pc <- read this pseudoClasses ;;
  (if is_undefined pc then (arr <- new_array ;; write this pseudoClasses arr) else ret tt) ;;
  pc' <- read this pseudoClasses ;;
  push pc' (":" ++ value) ;;
  ret this.

Definition pseudoElement (this : ref) (value : string) : M ref :=
  pe <- read this pseudoElem ;;
  if truthy pe then throw DuplicateFragment else
  write this pseudoElem (VStr ("::" ++ value)) ;;
  ret this.

(** One [if (this.f) { str += ... }] of [stringify]: [piece f v] is what the
    truthy value [v] of property [f] adds to [str]. *)
Definition piece (f : field) (v : value) : M string :=
  match f with
  | tag | attribute | pseudoElem | combination => to_string v
  | myId => s <- to_string v ;; ret ("#" ++ s)
  | classes => s <- join v "." ;; ret ("." ++ s)
  | pseudoClasses => join v EmptyString
  end.

Definition append (this : ref) (f : field) (str : string) : M string :=
  v <- read this f ;;
  if truthy v then (s <- piece f v ;; ret (str ++ s)) else ret str.

Definition stringify (this : ref) : M string :=
  let str := EmptyString in
  str <- append this tag str ;;
  str <- append this myId str ;;
  str <- append this classes str ;;
  str <- append this attribute str ;;
  str <- append this pseudoClasses str ;;
  str <- append this pseudoElem str ;;
  str <- append this combination str ;;
  write this tag VUndef ;;
  write this myId VUndef ;;
  write this classes VUndef ;;
  write this attribute VUndef ;;
  write this pseudoClasses VUndef ;;
  write this pseudoElem VUndef ;;
  write this combination VUndef ;;
  ret str.

Definition combine (selector1 : ref) (combinator : string) (selector2 : ref) : M ref :=
  str1 <- stringify selector1 ;;
  str2 <- stringify selector2 ;;
  obj <- fresh ;;
  write obj combination (VStr (str1 ++ " " ++ combinator ++ " " ++ str2)) ;;
  ret obj.

End cssSelectorBuilder.
Import cssSelectorBuilder.

(** A chain [builder.m1(v1).m2(v2)...]: each call is made on the object the
    previous one returned. *)
Inductive call : Type :=
| Element (v : string)
| Id (v : string)
| Class (v : string)
| Attr (v : string)
| PseudoClass (v : string)
| PseudoElement (v : string).

Definition invoke (this : ref) (c : call) : M ref :=
  match c with
  | Element v => element this v
  | Id v => id this v
  | Class v => class this v
  | Attr v => attr this v
  | PseudoClass v => pseudoClass this v
  | PseudoElement v => pseudoElement this v
  end.

Fixpoint chain (this : ref) (cs : list call) : M ref :=
  match cs with
  | [] => ret this
  | c :: cs' => r <- invoke this c ;; chain r cs'
  end.

Definition run {A : Type} (m : M A) : result A := fst (m initial).


(** ** Well-formed heaps, and [stringify] as a function of what it reads *)

Definition fields : list field :=
  [tag; myId; classes; attribute; pseudoClasses; pseudoElem; combination].

(** What the methods store in a property: [classes] and [pseudoClasses] hold
    [undefined] or an array, the other five hold [undefined] or a string. *)
Definition value_ok (h : heap) (f : field) (v : value) : bool :=
  match v with
  | VUndef => true
  | VStr _ => match f with
              | classes | pseudoClasses => false
              | _ => true
              end
  | VArr a => match f with
              | classes | pseudoClasses => match array_of h a with
                                           | Some _ => true
                                           | None => false
                                           end
              | _ => false
              end
  end.

Definition object_ok (h : heap) (o : object) : bool :=
  forallb (fun f => match own o f with
                    | Some v => value_ok h f v
                    | None => true
                    end) fields.

Definition wf_b (h : heap) : bool :=
  object_ok h (builder h) && forallb (object_ok h) (objs h).

Definition wf (h : heap) : Prop := wf_b h = true.

(** The arrays of [h'] hold what those of [h] held, and possibly more. *)
Definition grows (h h' : heap) : Prop :=
  forall a l, array_of h a = Some l ->
    exists l', array_of h' a = Some (l ++ l')%list.

(** Every array of [h] is an array of [h'] with the same contents. *)
Definition keeps (h h' : heap) : Prop :=
  forall a l, array_of h a = Some l -> array_of h' a = Some l.

(** [cssSelectorBuilder] itself carries no fragment: every one of the seven
    properties reads [undefined] on it. *)
Definition pristine_b (h : heap) : bool :=
  forallb (fun f => is_undefined (get h Builder f)) fields.

Definition pristine (h : heap) : Prop := pristine_b h = true.

(** What the [if] of [stringify] for property [f] adds when [this.f] is [v]. *)
Definition part (h : heap) (f : field) (v : value) : string :=
  if truthy v then
    match piece f v h with
    | (Ok s, _) => s
    | (Throw _, _) => EmptyString
    end
  else EmptyString.

(** The string [stringify] builds from the properties of [r]. *)
Definition render (h : heap) (r : ref) : string :=
  part h tag (get h r tag) ++ part h myId (get h r myId)
  ++ part h classes (get h r classes) ++ part h attribute (get h r attribute)
  ++ part h pseudoClasses (get h r pseudoClasses)
  ++ part h pseudoElem (get h r pseudoElem)
  ++ part h combination (get h r combination).

(** The seven assignments that end [stringify]. *)
Definition reset (h : heap) (r : ref) : heap :=
  fold_left (fun h' f => assign h' r f VUndef) fields h.

(** The property [f] of [s] holds a value of the right kind and adds [text]
    to the rendering. *)
Definition shows (h : heap) (s : ref) (f : field) (text : string) : Prop :=
  part h f (get h s f) = text /\ value_ok h f (get h s f) = true.

(** The calls [cs], made on [s], all return [s]; they keep the arrays and
    every property of [s] but [f0], which afterwards adds [text]. *)
Definition phase (cs : list call) (f0 : field) (text : string) (h : heap) (s : ref) : Prop :=
  exists h',
    chain s cs h = (Ok s, h')
    /\ allocated h' s
    /\ keeps h h'
    /\ (forall f, f <> f0 -> get h' s f = get h s f)
    /\ shows h' s f0 text.

(** ** The rendering the specification describes *)

(** The fragments a chain of calls gives to one simple selector. *)
Record fragments : Type := mkFragments {
  the_element : option string;
  the_id : option string;
  the_classes : list string;
  the_attribute : option string;
  the_pseudoClasses : list string;
  the_pseudoElement : option string
}.

Definition optional (o : option string) (shown : string -> string) : string :=
  match o with
  | Some s => shown s
  | None => EmptyString
  end.

(** Element, then [#] and the id, then each class after a [.], then the
    attribute in brackets, then each pseudo-class after a [:], then the
    pseudo-element after [::]. *)
Definition render_fragments (x : fragments) : string :=
  optional (the_element x) (fun e => e)
  ++ optional (the_id x) (fun i => "#" ++ i)
  ++ String.concat EmptyString (map (fun c => "." ++ c) (the_classes x))
  ++ optional (the_attribute x) (fun a => "[" ++ a ++ "]")
  ++ String.concat EmptyString (map (fun p => ":" ++ p) (the_pseudoClasses x))
  ++ optional (the_pseudoElement x) (fun p => "::" ++ p).

Definition once (o : option string) (c : string -> call) : list call :=
  match o with
  | Some s => [c s]
  | None => []
  end.

(** The calls that append the fragments in the order of the grammar. *)
Definition calls_of (x : fragments) : list call :=
  (once (the_element x) Element ++ once (the_id x) Id
   ++ map Class (the_classes x) ++ once (the_attribute x) Attr
   ++ map PseudoClass (the_pseudoClasses x)
   ++ once (the_pseudoElement x) PseudoElement)%list.

(** ** The claims about errors and about [combine], as predicates *)

(** The method [m] throws the duplicate error whenever the property [f] of
    [this] is set. *)
Definition duplicate_rejected (m : ref -> string -> M ref) (f : field) : Prop :=
  forall (h : heap) (this : ref) (value : string),
    truthy (get h this f) = true ->
    fst (m this value h) = Throw DuplicateFragment.

(** In the heap [h], the selector [combine] makes of [left] and [right]
    renders as the rendering of [left], the combinator between two spaces,
    and the rendering of [right]. *)
Definition combine_joins (h : heap) (left : ref) (combinator : string) (right : ref) : Prop :=
  forall sl sr,
    fst (stringify left h) = Ok sl ->
    fst (stringify right h) = Ok sr ->
    exists c h1 h2,
      combine left combinator right h = (Ok c, h1)
      /\ stringify c h1 = (Ok (sl ++ " " ++ combinator ++ " " ++ sr), h2).

(** The heap after [builder.attr('x')], [builder.element('div')] and
    [builder.element('span')]: the attribute is on the builder, and the two
    elements are [Obj 0] and [Obj 1]. *)
Definition attr_left_on_builder : heap :=
  snd ((attr Builder "x" ;; element Builder "div" ;; element Builder "span") initial).

(** The heap after [builder.element('div').id('main')] and
    [builder.element('span')], which are [Obj 0] and [Obj 2]. *)
Definition div_main_and_span : heap :=
  snd ((chain Builder [Element "div"; Id "main"] ;; element Builder "span") initial).

(** The heap after [builder.element('a').id('b').pseudoElement('c')], which
    is [Obj 0]. *)
Definition id_and_pseudoElement : heap :=
  snd (chain Builder [Element "a"; Id "b"; PseudoElement "c"] initial).

(** ** The heaps the methods can produce *)

(** One call of the interface, on references the caller holds. *)
Inductive op : Type :=
| Invoke (this : ref) (c : call)
| Stringify (this : ref)
| Combine (selector1 : ref) (combinator : string) (selector2 : ref).

Definition perform (o : op) (h : heap) : heap :=
  match o with
  | Invoke this c => snd (invoke this c h)
  | Stringify this => snd (stringify this h)
  | Combine l c r => snd (combine l c r h)
  end.

Definition receivers (h : heap) (o : op) : Prop :=
  match o with
  | Invoke this _ => allocated h this
  | Stringify this => allocated h this
  | Combine l _ r => allocated h l /\ allocated h r
  end.

(** The heaps reached from the initial one by calls that return or throw. *)
Inductive reachable : heap -> Prop :=
| reachable_initial : reachable initial
| reachable_step (h : heap) (o : op) :
    reachable h -> receivers h o -> reachable (perform o h).

(** The double quote, for the attribute values of the examples. *)
Definition dquote : string := String (Ascii.ascii_of_nat 34) EmptyString.

(** ** More of the interface *)

(** The strings of the array a value refers to; none when it is no array. *)
Definition elements (h : heap) (v : value) : list string :=
  match v with
  | VArr a => match array_of h a with
              | Some l => l
              | None => []
              end
  | _ => []
  end.

(** [builder.m1(v1)...stringify()] for the calls that append the fragments
    [x], and several such builds one after the other. *)
Definition build (x : fragments) : M string :=
  s <- chain Builder (calls_of x) ;; stringify s.

Fixpoint builds (xs : list fragments) : M (list string) :=
  match xs with
  | [] => ret []
  | x :: xs' => s <- build x ;; ss <- builds xs' ;; ret (s :: ss)
  end.

Definition is_pseudoClass (c : call) : bool :=
  match c with
  | PseudoClass _ => true
  | _ => false
  end.

(** The calls that return [this]: all but [element] and [id]. *)
Definition stays (c : call) : bool :=
  match c with
  | Element _ | Id _ => false
  | _ => true
  end.

(** What a call of the interface throws, if it throws. *)
Definition thrown (o : op) (h : heap) : option error :=
  match o with
  | Invoke this c => match fst (invoke this c h) with
                     | Ok _ => None
                     | Throw e => Some e
                     end
  | Stringify this => match fst (stringify this h) with
                      | Ok _ => None
                      | Throw e => Some e
                      end
  | Combine l c r => match fst (combine l c r h) with
                     | Ok _ => None
                     | Throw e => Some e
                     end
  end.

(** [cssSelectorBuilder] itself has no element, no id and no combination. *)
Definition bare (h : heap) : Prop :=
  truthy (get h Builder tag) = false
  /\ truthy (get h Builder myId) = false
  /\ truthy (get h Builder combination) = false.

(** The heap after [builder.class('a')], left unrendered, and
    [builder.element('div')], which is [Obj 0] and owns no [classes]. *)
Definition class_left_on_builder : heap :=
  snd ((class Builder "a" ;; element Builder "div") initial).

(** The heap after [builder.element('div').pseudoClass('hover')
    .pseudoElement('after')], which is [Obj 0]. *)
Definition div_hover_after : heap :=
  snd (chain Builder [Element "div"; PseudoClass "hover"; PseudoElement "after"] initial).

(** * Proofs *)

(** ** Strings and lists *)

Lemma append_nil_r (s : string) : s ++ EmptyString = s.
Proof. induction s as [|c s IH]; simpl; [reflexivity | now rewrite IH]. Qed.

Lemma append_assoc (s t u : string) : (s ++ t) ++ u = s ++ (t ++ u).
Proof. induction s as [|c s IH]; simpl; [reflexivity | now rewrite IH]. Qed.

Lemma concat_cons (sep x : string) (l : list string) :
  l <> [] -> String.concat sep (x :: l) = x ++ sep ++ String.concat sep l.
Proof. destruct l; [congruence | reflexivity]. Qed.

(** [join] with a separator, behind one leading separator, puts the separator
    before each element. *)
Lemma concat_prefixed (sep : string) (l : list string) :
  l <> [] ->
  sep ++ String.concat sep l = String.concat EmptyString (map (fun c => sep ++ c) l).
Proof.
  induction l as [|x l IH]; [congruence |]. intros _.
  destruct l as [|y l].
  - reflexivity.
  - rewrite concat_cons by discriminate.
    change (map (fun c => sep ++ c) (x :: y :: l))
      with ((sep ++ x) :: map (fun c => sep ++ c) (y :: l)).
    rewrite (concat_cons EmptyString (sep ++ x) (map (fun c => sep ++ c) (y :: l)))
      by (simpl; discriminate).
    rewrite <- IH by discriminate.
    simpl. now rewrite append_assoc.
Qed.

Section Update.
Context {A : Type}.

Lemma length_update (n : nat) (x : A) (l : list A) :
  length (update n x l) = length l.
Proof.
  revert n; induction l as [|y l IH]; intros [|n]; simpl; auto.
Qed.

Lemma nth_error_update_same (n : nat) (x : A) (l : list A) :
  n < length l -> nth_error (update n x l) n = Some x.
Proof.
  revert n; induction l as [|y l IH]; intros [|n] H; simpl in *; try lia.
  - reflexivity.
  - apply IH; lia.
Qed.

Lemma nth_error_update_other (n m : nat) (x : A) (l : list A) :
  n <> m -> nth_error (update n x l) m = nth_error l m.
Proof.
  revert n m; induction l as [|y l IH]; intros [|n] [|m] H; simpl;
    try reflexivity; try congruence.
  apply IH; congruence.
Qed.

Lemma nth_error_snoc_old (l : list A) (x : A) (n : nat) (y : A) :
  nth_error l n = Some y -> nth_error (l ++ [x]) n = Some y.
Proof.
  intros H. rewrite nth_error_app1; [assumption |].
  apply nth_error_Some; congruence.
Qed.

Lemma nth_error_snoc_new (l : list A) (x : A) :
  nth_error (l ++ [x]) (length l) = Some x.
Proof.
  rewrite nth_error_app2 by lia. now rewrite Nat.sub_diag.
Qed.
End Update.

(** ** Reads after writes *)

Lemma field_eq_dec (f g : field) : {f = g} + {f <> g}.
Proof. decide equality. Qed.

Lemma ref_eq_dec (r r' : ref) : {r = r'} + {r <> r'}.
Proof. decide equality. apply Nat.eq_dec. Qed.

Lemma own_put_same (o : object) (f : field) (v : value) :
  own (put o f v) f = Some v.
Proof. destruct f; reflexivity. Qed.

Lemma own_put_other (o : object) (f g : field) (v : value) :
  f <> g -> own (put o f v) g = own o g.
Proof. destruct f, g; intros H; try reflexivity; congruence. Qed.

Lemma get_unfold (h : heap) (r : ref) (f : field) :
  get h r f = match own_of h r f with
              | Some v => v
              | None => match own_of h Builder f with
                        | Some v => v
                        | None => VUndef
                        end
              end.
Proof. reflexivity. Qed.

Lemma own_of_assign_same (h : heap) (r : ref) (f : field) (v : value) :
  allocated h r -> own_of (assign h r f v) r f = Some v.
Proof.
  destruct r as [|n]; simpl; intros H.
  - apply own_put_same.
  - destruct (nth_error (objs h) n) as [o|] eqn:E.
    + simpl. rewrite nth_error_update_same by assumption. apply own_put_same.
    + apply nth_error_None in E. lia.
Qed.

Lemma own_of_assign_other (h : heap) (r r' : ref) (f g : field) (v : value) :
  r <> r' \/ f <> g -> own_of (assign h r f v) r' g = own_of h r' g.
Proof.
  intros H. destruct r as [|n]; destruct r' as [|m]; simpl.
  - destruct H as [H|H]; [congruence | now apply own_put_other].
  - reflexivity.
  - destruct (nth_error (objs h) n); reflexivity.
  - destruct (nth_error (objs h) n) as [o|] eqn:E; [simpl | reflexivity].
    destruct (Nat.eq_dec n m) as [->|Hnm].
    + rewrite nth_error_update_same by (apply nth_error_Some; congruence).
      rewrite E. destruct H as [H|H]; [congruence | now apply own_put_other].
    + now rewrite nth_error_update_other.
Qed.

Lemma get_assign_same (h : heap) (r : ref) (f : field) (v : value) :
  allocated h r -> get (assign h r f v) r f = v.
Proof. intros H. rewrite get_unfold, own_of_assign_same; auto. Qed.

Lemma get_assign_field (h : heap) (r r' : ref) (f g : field) (v : value) :
  f <> g -> get (assign h r f v) r' g = get h r' g.
Proof.
  intros H. rewrite !get_unfold, !own_of_assign_other by auto. reflexivity.
Qed.

Lemma get_assign_ref (h : heap) (n : nat) (r' : ref) (f g : field) (v : value) :
  Obj n <> r' -> get (assign h (Obj n) f v) r' g = get h r' g.
Proof.
  intros H. rewrite !get_unfold, !own_of_assign_other; auto.
  left; discriminate.
Qed.

Lemma arrays_assign (h : heap) (r : ref) (f : field) (v : value) :
  arrays (assign h r f v) = arrays h.
Proof. destruct r as [|n]; simpl; [| destruct (nth_error (objs h) n)]; reflexivity. Qed.

Lemma length_objs_assign (h : heap) (r : ref) (f : field) (v : value) :
  length (objs (assign h r f v)) = length (objs h).
Proof.
  destruct r as [|n]; simpl; [reflexivity |].
  destruct (nth_error (objs h) n); simpl; [apply length_update | reflexivity].
Qed.

Lemma allocated_assign (h : heap) (r r' : ref) (f : field) (v : value) :
  allocated (assign h r f v) r' <-> allocated h r'.
Proof. destruct r'; simpl; [tauto | now rewrite length_objs_assign]. Qed.

Lemma allocated_assign_intro (h : heap) (r r' : ref) (f : field) (v : value) :
  allocated h r' -> allocated (assign h r f v) r'.
Proof. apply allocated_assign. Qed.

Lemma allocated_push_arr (h : heap) (a : nat) (l : list string) (x : string) (r : ref) :
  allocated h r -> allocated (push_arr h a l x) r.
Proof. destruct r; auto. Qed.

Lemma allocated_alloc_arr (h : heap) (r : ref) :
  allocated h r -> allocated (alloc_arr h) r.
Proof. destruct r; auto. Qed.

(** A new object has no property of its own: every read, on it or on any
    other object, is what it was. *)
Lemma get_alloc_obj (h : heap) (r : ref) (f : field) :
  get (alloc_obj h) r f = get h r f.
Proof.
  rewrite !get_unfold. destruct r as [|n]; simpl; [reflexivity |].
  destruct (nth_error (objs h) n) as [o|] eqn:E.
  - now rewrite (nth_error_snoc_old _ _ _ _ E).
  - apply nth_error_None in E.
    destruct (Nat.eq_dec n (length (objs h))) as [->|Hn].
    + rewrite nth_error_snoc_new. now destruct f.
    + replace (nth_error (objs h ++ [empty_object]) n) with (@None object); [reflexivity |].
      symmetry. apply nth_error_None. rewrite length_app. simpl. lia.
Qed.

Lemma allocated_alloc_obj (h : heap) (r : ref) :
  allocated h r -> allocated (alloc_obj h) r.
Proof. destruct r; simpl; [tauto | rewrite length_app; simpl; lia]. Qed.

Lemma allocated_fresh (h : heap) : allocated (alloc_obj h) (Obj (length (objs h))).
Proof. simpl. rewrite length_app. simpl. lia. Qed.

Ltac allocated_tac :=
  repeat match goal with
         | |- allocated _ _ => assumption
         | |- allocated (assign _ _ _ _) _ => apply allocated_assign_intro
         | |- allocated (push_arr _ _ _ _) _ => apply allocated_push_arr
         | |- allocated (alloc_arr _) _ => apply allocated_alloc_arr
         | |- allocated (alloc_obj _) _ => apply allocated_alloc_obj
         end.

Lemma get_push_arr (h : heap) (a : nat) (l : list string) (s : string) (r : ref) (f : field) :
  get (push_arr h a l s) r f = get h r f.
Proof. reflexivity. Qed.

Lemma array_of_assign (h : heap) (r : ref) (f : field) (v : value) (a : nat) :
  array_of (assign h r f v) a = array_of h a.
Proof. unfold array_of. now rewrite arrays_assign. Qed.

Lemma array_of_alloc_arr_old (h : heap) (a : nat) (l : list string) :
  array_of h a = Some l -> array_of (alloc_arr h) a = Some l.
Proof. apply nth_error_snoc_old. Qed.

Lemma array_of_alloc_arr_new (h : heap) :
  array_of (alloc_arr h) (length (arrays h)) = Some [].
Proof. apply nth_error_snoc_new. Qed.

Lemma array_of_push_same (h : heap) (a : nat) (l : list string) (s : string) :
  array_of h a = Some l -> array_of (push_arr h a l s) a = Some (l ++ [s])%list.
Proof.
  intros H. apply nth_error_update_same. apply nth_error_Some.
  unfold array_of in H. congruence.
Qed.

Lemma array_of_push_other (h : heap) (a b : nat) (l : list string) (s : string) :
  a <> b -> array_of (push_arr h a l s) b = array_of h b.
Proof. intros H. now apply nth_error_update_other. Qed.

Lemma array_lt (h : heap) (a : nat) (l : list string) :
  array_of h a = Some l -> a < length (arrays h).
Proof. intros H. apply nth_error_Some. unfold array_of in H. congruence. Qed.

(** ** Running the monad *)

Lemma bind_ok {A B : Type} (m : M A) (k : A -> M B) (h h' : heap) (x : A) :
  m h = (Ok x, h') -> bind m k h = k x h'.
Proof. unfold bind. now intros ->. Qed.

(** ** Well-formed heaps *)

Lemma in_fields (f : field) : In f fields.
Proof. destruct f; simpl; tauto. Qed.

Lemma object_ok_own (h : heap) (o : object) (f : field) (v : value) :
  object_ok h o = true -> own o f = Some v -> value_ok h f v = true.
Proof.
  unfold object_ok. rewrite forallb_forall. intros H E.
  specialize (H f (in_fields f)). now rewrite E in H.
Qed.

Lemma object_ok_intro (h : heap) (o : object) :
  (forall f v, own o f = Some v -> value_ok h f v = true) -> object_ok h o = true.
Proof.
  intros H. unfold object_ok. apply forallb_forall. intros f _.
  destruct (own o f) eqn:E; auto.
Qed.

Lemma wf_own_of (h : heap) (r : ref) (f : field) (v : value) :
  wf h -> own_of h r f = Some v -> value_ok h f v = true.
Proof.
  unfold wf, wf_b. rewrite andb_true_iff, forallb_forall. intros [Hb Ho] E.
  destruct r as [|n]; simpl in E.
  - eapply object_ok_own; eauto.
  - destruct (nth_error (objs h) n) as [o|] eqn:En; [| discriminate].
    eapply object_ok_own; [| eassumption]. apply Ho. eapply nth_error_In; eauto.
Qed.

(** In a well-formed heap every read finds a value of the right kind. *)
Lemma wf_get (h : heap) (r : ref) (f : field) :
  wf h -> value_ok h f (get h r f) = true.
Proof.
  intros H. rewrite get_unfold.
  destruct (own_of h r f) as [v|] eqn:E; [now apply (wf_own_of h r) |].
  destruct (own_of h Builder f) as [v|] eqn:Eb; [now apply (wf_own_of h Builder) |].
  reflexivity.
Qed.

Lemma wf_initial : wf initial.
Proof. reflexivity. Qed.

Lemma pristine_get (h : heap) (f : field) :
  pristine h -> get h Builder f = VUndef.
Proof.
  unfold pristine, pristine_b. rewrite forallb_forall. intros H.
  specialize (H f (in_fields f)). now destruct (get h Builder f).
Qed.

Lemma pristine_intro (h : heap) :
  (forall f, get h Builder f = VUndef) -> pristine h.
Proof.
  intros H. unfold pristine, pristine_b. apply forallb_forall.
  intros f _. now rewrite H.
Qed.

(** ** [stringify] *)

Lemma piece_ok (h : heap) (f : field) (v : value) :
  value_ok h f v = true -> truthy v = true ->
  piece f v h = (Ok (part h f v), h).
Proof.
  unfold part. intros Hok Ht. rewrite Ht.
  destruct v as [|s|a]; [discriminate | |].
  - destruct f; try discriminate; reflexivity.
  - destruct f; try discriminate; simpl in Hok;
      unfold piece, bind, join, ret;
      destruct (array_of h a) as [l|]; try discriminate; reflexivity.
Qed.

Lemma append_ok (h : heap) (this : ref) (f : field) (str : string) :
  value_ok h f (get h this f) = true ->
  append this f str h = (Ok (str ++ part h f (get h this f)), h).
Proof.
  intros Hok. unfold append, bind, read.
  destruct (truthy (get h this f)) eqn:Ht.
  - rewrite (piece_ok _ _ _ Hok Ht). reflexivity.
  - unfold part. rewrite Ht. unfold ret. now rewrite append_nil_r.
Qed.

(** [stringify] returns the string [render] computes and leaves the heap
    [reset] computes, whenever the seven properties it reads hold values of
    the right kind. *)
Lemma stringify_spec (h : heap) (this : ref) :
  (forall f, value_ok h f (get h this f) = true) ->
  stringify this h = (Ok (render h this), reset h this).
Proof.
  intros Hok. unfold stringify.
  repeat (erewrite bind_ok; [| apply append_ok; apply Hok]).
  unfold bind, write, ret, render, reset, fields. cbn [fold_left].
  rewrite !append_assoc. reflexivity.
Qed.

Lemma stringify_wf (h : heap) (this : ref) :
  wf h -> stringify this h = (Ok (render h this), reset h this).
Proof. intros H. apply stringify_spec. intros f. now apply wf_get. Qed.

Lemma get_reset (h : heap) (r : ref) (f : field) :
  allocated h r -> get (reset h r) r f = VUndef.
Proof.
  intros H. unfold reset, fields. cbn [fold_left].
  destruct f;
    repeat first
      [ apply get_assign_same; repeat (apply allocated_assign); exact H
      | rewrite get_assign_field by discriminate ].
Qed.

Lemma get_reset_other (h : heap) (n : nat) (r : ref) (f : field) :
  Obj n <> r -> get (reset h (Obj n)) r f = get h r f.
Proof.
  intros H. unfold reset, fields. cbn [fold_left]. now rewrite !get_assign_ref.
Qed.

Lemma arrays_reset (h : heap) (r : ref) : arrays (reset h r) = arrays h.
Proof. unfold reset, fields. cbn [fold_left]. now rewrite !arrays_assign. Qed.

Lemma allocated_reset (h : heap) (r r' : ref) :
  allocated (reset h r) r' <-> allocated h r'.
Proof. unfold reset, fields. cbn [fold_left]. now rewrite !allocated_assign. Qed.

Lemma part_arrays (h h' : heap) (f : field) (v : value) :
  arrays h' = arrays h -> part h' f v = part h f v.
Proof.
  intros E. unfold part. destruct (truthy v); [| reflexivity].
  destruct v as [|s|a]; destruct f; try reflexivity;
    unfold piece, bind, join, to_string, array_of; rewrite E;
    destruct (nth_error (arrays h) a); reflexivity.
Qed.

Lemma part_undefined (h : heap) (f : field) : part h f VUndef = EmptyString.
Proof. reflexivity. Qed.

(** After the reset every property reads [undefined], so nothing is rendered. *)
Lemma render_reset (h : heap) (r : ref) :
  allocated h r -> render (reset h r) r = EmptyString.
Proof.
  intros H. unfold render. rewrite !get_reset by assumption. reflexivity.
Qed.

Lemma own_of_reset_same (h : heap) (r : ref) (f : field) :
  allocated h r -> own_of (reset h r) r f = Some VUndef.
Proof.
  intros H. unfold reset, fields. cbn [fold_left].
  destruct f;
    repeat first
      [ apply own_of_assign_same; repeat (apply allocated_assign); exact H
      | rewrite own_of_assign_other by (right; discriminate) ].
Qed.

Lemma own_of_reset_other (h : heap) (r r' : ref) (f : field) :
  r <> r' -> own_of (reset h r) r' f = own_of h r' f.
Proof.
  intros H. unfold reset, fields. cbn [fold_left].
  now rewrite !own_of_assign_other by (left; exact H).
Qed.

(** ** The invariant is kept *)

Lemma wf_iff (h : heap) :
  wf h <-> (forall r f v, own_of h r f = Some v -> value_ok h f v = true).
Proof.
  split.
  - intros H r f v. now apply wf_own_of.
  - intros H. unfold wf, wf_b. apply andb_true_iff. split.
    + apply object_ok_intro. intros f v E. now apply (H Builder).
    + apply forallb_forall. intros o Hin.
      destruct (In_nth_error _ _ Hin) as [n En].
      apply object_ok_intro. intros f v E. apply (H (Obj n)).
      simpl. now rewrite En.
Qed.

Lemma grows_eq (h h' : heap) : arrays h' = arrays h -> grows h h'.
Proof.
  intros E a l Ha. exists []. rewrite app_nil_r. unfold array_of in *. congruence.
Qed.

Lemma grows_trans (h1 h2 h3 : heap) : grows h1 h2 -> grows h2 h3 -> grows h1 h3.
Proof.
  intros H12 H23 a l E. destruct (H12 a l E) as [l' E'].
  destruct (H23 a _ E') as [l'' E'']. exists (l' ++ l'')%list.
  now rewrite app_assoc.
Qed.

Lemma grows_alloc_arr (h : heap) : grows h (alloc_arr h).
Proof.
  intros a l E. exists []. rewrite app_nil_r. now apply array_of_alloc_arr_old.
Qed.

Lemma grows_push (h : heap) (a : nat) (l : list string) (s : string) :
  array_of h a = Some l -> grows h (push_arr h a l s).
Proof.
  intros E b l' Eb. destruct (Nat.eq_dec a b) as [<-|Hab].
  - exists [s]. rewrite (array_of_push_same _ _ _ _ E). congruence.
  - exists []. rewrite app_nil_r, array_of_push_other; auto.
Qed.

Lemma value_ok_grows (h h' : heap) (f : field) (v : value) :
  grows h h' -> value_ok h f v = true -> value_ok h' f v = true.
Proof.
  intros G. destruct v as [|s|a]; simpl; auto.
  destruct f; auto; destruct (array_of h a) as [l|] eqn:E; try discriminate;
    destruct (G a l E) as [l' ->]; auto.
Qed.

Lemma own_of_assign_cases (h : heap) (r r' : ref) (f g : field) (v w : value) :
  own_of (assign h r f v) r' g = Some w ->
  own_of h r' g = Some w \/ (g = f /\ w = v).
Proof.
  destruct (ref_eq_dec r r') as [<-|Hr];
    [| rewrite own_of_assign_other by (left; exact Hr); auto].
  destruct (field_eq_dec f g) as [<-|Hf];
    [| rewrite own_of_assign_other by (right; exact Hf); auto].
  destruct r as [|n].
  - simpl. rewrite own_put_same. intros [= <-]. auto.
  - simpl. destruct (nth_error (objs h) n) as [o|] eqn:E.
    + simpl. rewrite nth_error_update_same by (apply nth_error_Some; congruence).
      rewrite own_put_same. intros [= <-]. auto.
    + simpl. rewrite E. discriminate.
Qed.

Lemma wf_assign (h : heap) (r : ref) (f : field) (v : value) :
  wf h -> value_ok h f v = true -> wf (assign h r f v).
Proof.
  rewrite !wf_iff. intros H Hv r' g w E.
  apply (value_ok_grows h); [apply grows_eq, arrays_assign |].
  destruct (own_of_assign_cases _ _ _ _ _ _ _ E) as [E'|[-> ->]]; eauto.
Qed.

Lemma own_of_alloc_obj (h : heap) (r : ref) (f : field) (v : value) :
  own_of (alloc_obj h) r f = Some v -> own_of h r f = Some v.
Proof.
  destruct r as [|n]; simpl; [auto |].
  destruct (nth_error (objs h) n) as [o|] eqn:E.
  - now rewrite (nth_error_snoc_old _ _ _ _ E).
  - apply nth_error_None in E.
    destruct (Nat.eq_dec n (length (objs h))) as [->|Hn].
    + rewrite nth_error_snoc_new. now destruct f.
    + replace (nth_error (objs h ++ [empty_object]) n) with (@None object); [auto |].
      symmetry. apply nth_error_None. rewrite length_app. simpl. lia.
Qed.

Lemma wf_alloc_obj (h : heap) : wf h -> wf (alloc_obj h).
Proof.
  rewrite !wf_iff. intros H r f v E. apply own_of_alloc_obj in E.
  apply (value_ok_grows h); [now apply grows_eq | eauto].
Qed.

Lemma wf_grows (h h' : heap) :
  builder h' = builder h -> objs h' = objs h -> grows h h' -> wf h -> wf h'.
Proof.
  intros Eb Eo G. rewrite !wf_iff. intros H r f v E.
  apply (value_ok_grows h); [assumption |]. apply (H r).
  unfold own_of in *. now rewrite Eb, Eo in E.
Qed.

Lemma wf_reset (h : heap) (r : ref) : wf h -> wf (reset h r).
Proof.
  intros H. unfold reset, fields. cbn [fold_left].
  repeat (apply wf_assign; [| reflexivity]). exact H.
Qed.

(** ** [combine] *)

(** [combine] renders the first selector, then the second in the heap the
    first rendering left, and stores the joined string in a new object. *)
Lemma combine_spec (h : heap) (l r : ref) (c : string) :
  wf h ->
  let h1 := reset h l in
  let h2 := reset h1 r in
  combine l c r h =
  (Ok (Obj (length (objs h2))),
   assign (alloc_obj h2) (Obj (length (objs h2))) combination
     (VStr (render h l ++ " " ++ c ++ " " ++ render h1 r))).
Proof.
  intros H h1 h2. unfold combine.
  rewrite (bind_ok _ _ _ _ _ (stringify_wf h l H)).
  rewrite (bind_ok _ _ _ _ _ (stringify_wf h1 r (wf_reset h l H))).
  reflexivity.
Qed.

Lemma allocated_neq_fresh (h : heap) (r : ref) :
  allocated h r -> Obj (length (objs h)) <> r.
Proof. destruct r as [|n]; simpl; [discriminate | intros H [= E]; lia]. Qed.

Lemma own_of_alloc_obj_old (h : heap) (r : ref) (f : field) :
  allocated h r -> own_of (alloc_obj h) r f = own_of h r f.
Proof.
  destruct r as [|n]; simpl; [reflexivity |]. intros H.
  now rewrite nth_error_app1.
Qed.

(** A selector that owns all seven properties with the value [undefined]
    renders as the empty string. *)
Lemma stringify_blank (h : heap) (x : ref) :
  (forall f, own_of h x f = Some VUndef) ->
  stringify x h = (Ok EmptyString, reset h x).
Proof.
  intros H.
  assert (G : forall f, get h x f = VUndef).
  { intros f. now rewrite get_unfold, H. }
  rewrite stringify_spec by (intros f; now rewrite G).
  unfold render. now rewrite !G.
Qed.

(** After [combine] a child selector owns its seven properties and each holds
    [undefined]. *)
Lemma own_of_combine_child (h : heap) (l r x : ref) (f : field) (v : value) :
  allocated h l -> allocated h r -> x = l \/ x = r ->
  let h2 := reset (reset h l) r in
  own_of (assign (alloc_obj h2) (Obj (length (objs h2))) combination v) x f
  = Some VUndef.
Proof.
  intros Hl Hr Hx h2.
  assert (Hx2 : allocated h2 x).
  { unfold h2. rewrite !allocated_reset. destruct Hx; now subst. }
  rewrite own_of_assign_other by (left; now apply allocated_neq_fresh).
  rewrite own_of_alloc_obj_old by assumption.
  unfold h2. destruct (ref_eq_dec r x) as [->|Hrx].
  - apply own_of_reset_same. now rewrite allocated_reset.
  - rewrite own_of_reset_other by assumption.
    destruct Hx as [->| ->]; [| congruence]. now apply own_of_reset_same.
Qed.


(** ** One call at a time *)

Lemma element_run (h : heap) (this : ref) (value : string) :
  truthy (get h this tag) = false -> truthy (get h this myId) = false ->
  element this value h
  = (Ok (Obj (length (objs h))),
     assign (alloc_obj h) (Obj (length (objs h))) tag (VStr value)).
Proof.
  intros Ht Hi. unfold element, bind, read, fresh. rewrite Ht.
  rewrite get_alloc_obj, Hi. reflexivity.
Qed.

Lemma id_run (h : heap) (this : ref) (value : string) :
  get h this pseudoElem = VUndef -> truthy (get h this myId) = false ->
  get h this classes = VUndef -> get h this pseudoClasses = VUndef ->
  let obj := if truthy (get h this tag) then this else Obj (length (objs h)) in
  id this value h = (Ok obj, assign (alloc_obj h) obj myId (VStr value)).
Proof.
  intros Hpe Hi Hc Hpc obj. unfold id, bind, read, fresh.
  rewrite Hpe. cbn [negb is_undefined]. rewrite Hi, Hc. cbn [negb is_undefined].
  rewrite Hpc. cbn [negb is_undefined]. rewrite get_alloc_obj. reflexivity.
Qed.

Lemma class_first (h : heap) (this : ref) (value : string) :
  allocated h this ->
  truthy (get h this attribute) = false -> get h this classes = VUndef ->
  let a := length (arrays h) in
  class this value h
  = (Ok this,
     assign (push_arr (assign (alloc_arr h) this classes (VArr a)) a [] value)
       this pseudoClasses VUndef).
Proof.
  intros Ha Hat Hc a. unfold class, bind, read, new_array, write, push.
  rewrite Hat, Hc. cbn [is_undefined]. cbv beta iota.
  rewrite get_assign_same by exact Ha.
  rewrite array_of_assign, array_of_alloc_arr_new. reflexivity.
Qed.

Lemma class_next (h : heap) (this : ref) (value : string) (a : nat) (l : list string) :
  truthy (get h this attribute) = false ->
  get h this classes = VArr a -> array_of h a = Some l ->
  class this value h
  = (Ok this, assign (push_arr h a l value) this pseudoClasses VUndef).
Proof.
  intros Hat Hc Hl. unfold class, bind, read, ret, push, write.
  rewrite Hat, Hc. simpl. rewrite Hc, Hl. reflexivity.
Qed.

Lemma attr_run (h : heap) (this : ref) (value : string) :
  get h this pseudoClasses = VUndef ->
  attr this value h
  = (Ok this,
     assign (assign (assign h this attribute (VStr ("[" ++ value ++ "]")))
               this pseudoClasses VUndef) this pseudoElem VUndef).
Proof.
  intros Hpc. unfold attr, bind, read, write. rewrite Hpc. reflexivity.
Qed.

Lemma pseudoClass_first (h : heap) (this : ref) (value : string) :
  allocated h this ->
  truthy (get h this pseudoElem) = false -> get h this pseudoClasses = VUndef ->
  let b := length (arrays h) in
  pseudoClass this value h
  = (Ok this,
     push_arr (assign (alloc_arr h) this pseudoClasses (VArr b)) b [] (":" ++ value)).
Proof.
  intros Ha Hpe Hpc b. unfold pseudoClass, bind, read, new_array, write, push.
  rewrite Hpe, Hpc. cbn [is_undefined]. cbv beta iota.
  rewrite get_assign_same by exact Ha.
  rewrite array_of_assign, array_of_alloc_arr_new. reflexivity.
Qed.

Lemma pseudoClass_next (h : heap) (this : ref) (value : string) (b : nat) (l : list string) :
  truthy (get h this pseudoElem) = false ->
  get h this pseudoClasses = VArr b -> array_of h b = Some l ->
  pseudoClass this value h = (Ok this, push_arr h b l (":" ++ value)).
Proof.
  intros Hpe Hpc Hl. unfold pseudoClass, bind, read, ret, push.
  rewrite Hpe, Hpc. simpl. rewrite Hpc, Hl. reflexivity.
Qed.

Lemma pseudoElement_run (h : heap) (this : ref) (value : string) :
  truthy (get h this pseudoElem) = false ->
  pseudoElement this value h
  = (Ok this, assign h this pseudoElem (VStr ("::" ++ value))).
Proof.
  intros Hpe. unfold pseudoElement, bind, read. now rewrite Hpe.
Qed.

Lemma chain_app (this : ref) (cs ds : list call) (h : heap) :
  chain this (cs ++ ds) h = bind (chain this cs) (fun r => chain r ds) h.
Proof.
  revert this h. induction cs as [|c cs IH]; intros this h; simpl.
  - reflexivity.
  - unfold bind. destruct (invoke this c h) as [[r|e] h1].
    + rewrite IH. reflexivity.
    + reflexivity.
Qed.

(** ** A chain in the order of the grammar, phase by phase *)

Lemma keeps_refl (h : heap) : keeps h h.
Proof. intros a l E. exact E. Qed.

Lemma keeps_eq (h h' : heap) : arrays h' = arrays h -> keeps h h'.
Proof. intros E a l Ha. unfold array_of in *. congruence. Qed.

(** What a property adds to the rendering is the same in a heap that keeps
    the arrays. *)
Lemma part_keeps (h h' : heap) (f : field) (v : value) :
  keeps h h' -> value_ok h f v = true ->
  part h' f v = part h f v /\ value_ok h' f v = true.
Proof.
  intros K Hok. destruct v as [|s|a].
  - split; reflexivity.
  - split; [| exact Hok]. unfold part. destruct (truthy (VStr s)); [| reflexivity].
    destruct f; reflexivity.
  - destruct f; try discriminate; simpl in Hok;
      destruct (array_of h a) as [l|] eqn:E; try discriminate;
      pose proof (K a l E) as E'; unfold part, piece, bind, join; simpl;
      rewrite E, E'; auto.
Qed.

Lemma part_classes (h : heap) (a : nat) (l : list string) :
  array_of h a = Some l -> l <> [] ->
  part h classes (VArr a) = String.concat EmptyString (map (fun c => "." ++ c) l)
  /\ value_ok h classes (VArr a) = true.
Proof.
  intros E Hl. unfold part. cbn [truthy]. unfold piece, bind, join, ret.
  rewrite E. cbv beta iota. unfold value_ok. rewrite E. split.
  - now apply concat_prefixed.
  - reflexivity.
Qed.

Lemma part_pseudoClasses (h : heap) (b : nat) (l : list string) :
  array_of h b = Some l ->
  part h pseudoClasses (VArr b) = String.concat EmptyString l
  /\ value_ok h pseudoClasses (VArr b) = true.
Proof.
  intros E. unfold part. cbn [truthy]. unfold piece, join, value_ok.
  rewrite E. split; reflexivity.
Qed.

Lemma classes_next_phase (cs : list string) :
  forall (h : heap) (s : ref) (a : nat) (l : list string),
    allocated h s -> truthy (get h s attribute) = false ->
    get h s classes = VArr a -> array_of h a = Some l ->
    exists h',
      chain s (map Class cs) h = (Ok s, h')
      /\ allocated h' s
      /\ get h' s classes = VArr a
      /\ array_of h' a = Some (l ++ cs)%list
      /\ (forall b m, b <> a -> array_of h b = Some m -> array_of h' b = Some m)
      /\ (forall f, f <> pseudoClasses -> get h' s f = get h s f)
      /\ (get h s pseudoClasses = VUndef -> get h' s pseudoClasses = VUndef).
Proof.
  induction cs as [|c cs IH]; intros h s a l Ha Hat Hc Hl.
  - exists h. rewrite app_nil_r. repeat split; auto.
  - pose (h1 := assign (push_arr h a l c) s pseudoClasses VUndef).
    assert (G : forall f, f <> pseudoClasses -> get h1 s f = get h s f).
    { intros f Hf. unfold h1. rewrite get_assign_field by congruence.
      apply get_push_arr. }
    assert (Ha1 : allocated h1 s) by (unfold h1; allocated_tac).
    assert (Hl1 : array_of h1 a = Some (l ++ [c])%list).
    { unfold h1. rewrite array_of_assign. now apply array_of_push_same. }
    destruct (IH h1 s a (l ++ [c])%list) as (h' & Hrun & Ha' & Hc' & Hl' & Hk & Hg & Hp);
      auto; try (rewrite G by discriminate; assumption).
    exists h'. split; [| repeat split].
    + cbn [map chain invoke]. erewrite bind_ok; [exact Hrun |].
      now apply class_next.
    + assumption.
    + assumption.
    + rewrite Hl'. now rewrite <- app_assoc.
    + intros b m Hb E. apply Hk; [assumption |].
      unfold h1. rewrite array_of_assign, array_of_push_other; auto.
    + intros f Hf. rewrite Hg, G; auto.
    + intros _. apply Hp. unfold h1. apply get_assign_same. allocated_tac.
Qed.

Lemma classes_phase (cs : list string) (h : heap) (s : ref) :
  allocated h s -> truthy (get h s attribute) = false ->
  get h s classes = VUndef -> get h s pseudoClasses = VUndef ->
  phase (map Class cs) classes
    (String.concat EmptyString (map (fun c => "." ++ c) cs)) h s.
Proof.
  intros Ha Hat Hc Hp. unfold phase, shows. destruct cs as [|c cs].
  - exists h. rewrite Hc. repeat split; auto using keeps_refl.
  - pose (a := length (arrays h)).
    pose (h0 := assign (alloc_arr h) s classes (VArr a)).
    pose (h1 := assign (push_arr h0 a [] c) s pseudoClasses VUndef).
    assert (G : forall f, f <> classes -> f <> pseudoClasses -> get h1 s f = get h s f).
    { intros f Hf Hf'. unfold h1. rewrite get_assign_field by congruence.
      rewrite get_push_arr. unfold h0. now rewrite get_assign_field by congruence. }
    assert (Ha1 : allocated h1 s) by (unfold h1, h0; allocated_tac).
    assert (Hc1 : get h1 s classes = VArr a).
    { unfold h1. rewrite get_assign_field by discriminate. rewrite get_push_arr.
      unfold h0. apply get_assign_same. allocated_tac. }
    assert (E0 : array_of h0 a = Some []).
    { unfold h0. rewrite array_of_assign. apply array_of_alloc_arr_new. }
    assert (Hl1 : array_of h1 a = Some [c]).
    { unfold h1. rewrite array_of_assign.
      apply (array_of_push_same h0 a [] c E0). }
    assert (K1 : forall b m, array_of h b = Some m -> b <> a /\ array_of h1 b = Some m).
    { intros b m E. pose proof (array_lt _ _ _ E) as Hlt. fold a in Hlt.
      split; [lia |]. unfold h1. rewrite array_of_assign.
      rewrite array_of_push_other by lia. unfold h0. rewrite array_of_assign.
      now apply array_of_alloc_arr_old. }
    assert (Hp1 : get h1 s pseudoClasses = VUndef).
    { unfold h1. apply get_assign_same. unfold h0. allocated_tac. }
    destruct (classes_next_phase cs h1 s a [c]) as (h' & Hrun & Ha' & Hc' & Hl' & Hk & Hg & Hp');
      auto; try (rewrite G by discriminate; assumption).
    exists h'. split; [| repeat split].
    + cbn [map chain invoke]. erewrite bind_ok; [exact Hrun |].
      now apply class_first.
    + assumption.
    + intros b m E. destruct (K1 b m E) as [Hb E1]. now apply Hk.
    + intros f Hf. destruct (field_eq_dec f pseudoClasses) as [->|Hf'].
      * now rewrite Hp', Hp.
      * rewrite Hg, G; auto.
    + rewrite Hc'. apply part_classes; [exact Hl' | discriminate].
    + rewrite Hc'. apply (part_classes h' a ([c] ++ cs)%list); [exact Hl' | discriminate].
Qed.

Lemma pseudoClasses_next_phase (ps : list string) :
  forall (h : heap) (s : ref) (b : nat) (l : list string),
    truthy (get h s pseudoElem) = false ->
    get h s pseudoClasses = VArr b -> array_of h b = Some l ->
    exists h',
      chain s (map PseudoClass ps) h = (Ok s, h')
      /\ (allocated h s -> allocated h' s)
      /\ array_of h' b = Some (l ++ map (fun p => (":" ++ p)%string) ps)%list
      /\ (forall a m, a <> b -> array_of h a = Some m -> array_of h' a = Some m)
      /\ (forall f, get h' s f = get h s f).
Proof.
  induction ps as [|p ps IH]; intros h s b l Hpe Hpc Hl.
  - exists h. cbn [map]. rewrite app_nil_r. repeat split; auto.
  - pose (h1 := push_arr h b l (":" ++ p)).
    assert (Hl1 : array_of h1 b = Some (l ++ [(":" ++ p)%string])%list)
      by now apply array_of_push_same.
    destruct (IH h1 s b (l ++ [(":" ++ p)%string])%list) as (h' & Hrun & Ha' & Hl' & Hk & Hg);
      auto.
    exists h'. split; [| repeat split].
    + cbn [map chain invoke]. erewrite bind_ok; [exact Hrun |].
      now apply pseudoClass_next.
    + intros Ha. apply Ha'. unfold h1. allocated_tac.
    + rewrite Hl'. cbn [map]. now rewrite <- app_assoc.
    + intros a m Hab E. apply Hk; [assumption |].
      unfold h1. rewrite array_of_push_other; auto.
    + intros f. now rewrite Hg.
Qed.

Lemma pseudoClasses_phase (ps : list string) (h : heap) (s : ref) :
  allocated h s -> truthy (get h s pseudoElem) = false ->
  get h s pseudoClasses = VUndef ->
  phase (map PseudoClass ps) pseudoClasses
    (String.concat EmptyString (map (fun p => ":" ++ p) ps)) h s.
Proof.
  intros Ha Hpe Hpc. unfold phase, shows. destruct ps as [|p ps].
  - exists h. rewrite Hpc. repeat split; auto using keeps_refl.
  - pose (b := length (arrays h)).
    pose (h0 := assign (alloc_arr h) s pseudoClasses (VArr b)).
    pose (h1 := push_arr h0 b [] (":" ++ p)).
    assert (G : forall f, f <> pseudoClasses -> get h1 s f = get h s f).
    { intros f Hf. unfold h1. rewrite get_push_arr. unfold h0.
      now rewrite get_assign_field by congruence. }
    assert (Ha1 : allocated h1 s) by (unfold h1, h0; allocated_tac).
    assert (Hc1 : get h1 s pseudoClasses = VArr b).
    { unfold h1. rewrite get_push_arr. unfold h0. apply get_assign_same.
      allocated_tac. }
    assert (E0 : array_of h0 b = Some []).
    { unfold h0. rewrite array_of_assign. apply array_of_alloc_arr_new. }
    assert (Hl1 : array_of h1 b = Some [":" ++ p])
      by apply (array_of_push_same h0 b [] (":" ++ p) E0).
    assert (K1 : forall a m, array_of h a = Some m -> a <> b /\ array_of h1 a = Some m).
    { intros a m E. pose proof (array_lt _ _ _ E) as Hlt. fold b in Hlt.
      split; [lia |]. unfold h1. rewrite array_of_push_other by lia.
      unfold h0. rewrite array_of_assign. now apply array_of_alloc_arr_old. }
    destruct (pseudoClasses_next_phase ps h1 s b [":" ++ p])
      as (h' & Hrun & Ha' & Hl' & Hk & Hg); auto;
      try (rewrite G by discriminate; assumption).
    exists h'. split; [| repeat split].
    + cbn [map chain invoke]. erewrite bind_ok; [exact Hrun |].
      now apply pseudoClass_first.
    + auto.
    + intros a m E. destruct (K1 a m E) as [Hab E1]. now apply Hk.
    + intros f Hf. rewrite Hg, G; auto.
    + rewrite Hg, Hc1. now apply part_pseudoClasses.
    + rewrite Hg, Hc1. now apply (part_pseudoClasses h' b _ Hl').
Qed.

Lemma attr_phase (o : option string) (h : heap) (s : ref) :
  allocated h s -> get h s attribute = VUndef ->
  get h s pseudoClasses = VUndef -> get h s pseudoElem = VUndef ->
  phase (once o Attr) attribute (optional o (fun a => "[" ++ a ++ "]")) h s.
Proof.
  intros Ha Hat Hpc Hpe. unfold phase, shows. destruct o as [a|].
  - exists (assign (assign (assign h s attribute (VStr ("[" ++ a ++ "]")))
                      s pseudoClasses VUndef) s pseudoElem VUndef).
    split; [| repeat split].
    + cbn [once chain invoke]. erewrite bind_ok; [| now apply attr_run].
      reflexivity.
    + allocated_tac.
    + apply keeps_eq. now rewrite !arrays_assign.
    + intros f Hf.
      destruct (field_eq_dec f pseudoElem) as [->|H1];
        [rewrite get_assign_same by allocated_tac; now rewrite Hpe |].
      rewrite get_assign_field by congruence.
      destruct (field_eq_dec f pseudoClasses) as [->|H2];
        [rewrite get_assign_same by allocated_tac; now rewrite Hpc |].
      rewrite get_assign_field by congruence.
      now rewrite get_assign_field by congruence.
    + rewrite !get_assign_field by discriminate.
      rewrite get_assign_same by assumption. reflexivity.
    + rewrite !get_assign_field by discriminate.
      rewrite get_assign_same by assumption. reflexivity.
  - exists h. rewrite Hat. repeat split; auto using keeps_refl.
Qed.

Lemma pseudoElement_phase (o : option string) (h : heap) (s : ref) :
  allocated h s -> get h s pseudoElem = VUndef ->
  phase (once o PseudoElement) pseudoElem (optional o (fun p => "::" ++ p)) h s.
Proof.
  intros Ha Hpe. unfold phase, shows. destruct o as [p|].
  - exists (assign h s pseudoElem (VStr ("::" ++ p))).
    split; [| repeat split].
    + cbn [once chain invoke]. erewrite bind_ok;
        [| apply pseudoElement_run; now rewrite Hpe].
      reflexivity.
    + allocated_tac.
    + apply keeps_eq. now rewrite arrays_assign.
    + intros f Hf. now rewrite get_assign_field by congruence.
    + rewrite get_assign_same by assumption. reflexivity.
    + rewrite get_assign_same by assumption. reflexivity.
  - exists h. rewrite Hpe. repeat split; auto using keeps_refl.
Qed.

Lemma get_fresh (h : heap) (f : field) :
  get (alloc_obj h) (Obj (length (objs h))) f = get h Builder f.
Proof.
  rewrite get_alloc_obj, get_unfold. simpl.
  replace (nth_error (objs h) (length (objs h))) with (@None object)
    by (symmetry; apply nth_error_None; lia).
  rewrite get_unfold. simpl. now destruct (own (builder h) f).
Qed.

Lemma part_tag_string (h : heap) (e : string) : part h tag (VStr e) = e.
Proof. destruct e; reflexivity. Qed.

Lemma part_myId_string (h : heap) (i : string) :
  i <> EmptyString -> part h myId (VStr i) = "#" ++ i.
Proof. destruct i; [congruence | reflexivity]. Qed.

(** [builder.element(e)], or no call: the selector shows the element and
    nothing else, and the builder is as it was. *)
Lemma element_phase (e : option string) (h : heap) :
  pristine h ->
  exists s h1,
    chain Builder (once e Element) h = (Ok s, h1)
    /\ allocated h1 s
    /\ keeps h h1
    /\ pristine h1
    /\ part h1 tag (get h1 s tag) = optional e (fun e => e)
    /\ (get h1 s tag = VUndef \/ exists e', get h1 s tag = VStr e')
    /\ (forall f, f <> tag -> get h1 s f = VUndef).
Proof.
  intros Hp. destruct e as [e|].
  - pose (n := length (objs h)).
    exists (Obj n), (assign (alloc_obj h) (Obj n) tag (VStr e)).
    assert (Ha : allocated (alloc_obj h) (Obj n)) by apply allocated_fresh.
    split; [| repeat split].
    + cbn [once chain invoke]. erewrite bind_ok;
        [| apply element_run; now rewrite pristine_get].
      reflexivity.
    + allocated_tac.
    + apply keeps_eq. now rewrite arrays_assign.
    + apply pristine_intro. intros f.
      rewrite get_assign_ref by discriminate. rewrite get_alloc_obj.
      now apply pristine_get.
    + rewrite get_assign_same by assumption. apply part_tag_string.
    + right. exists e. now apply get_assign_same.
    + intros f Hf. rewrite get_assign_field by congruence.
      unfold n. rewrite get_fresh. now apply pristine_get.
  - exists Builder, h. cbn [once chain]. rewrite (pristine_get h tag Hp).
    repeat split; auto using keeps_refl. intros f _. now apply pristine_get.
Qed.

(** [.id(i)] on such a selector, or no call. *)
Lemma id_phase (i : option string) (h : heap) (s : ref) :
  pristine h -> allocated h s -> i <> Some EmptyString ->
  (get h s tag = VUndef \/ exists e', get h s tag = VStr e') ->
  (forall f, f <> tag -> get h s f = VUndef) ->
  exists s' h1,
    chain s (once i Id) h = (Ok s', h1)
    /\ allocated h1 s'
    /\ keeps h h1
    /\ shows h1 s' tag (part h tag (get h s tag))
    /\ shows h1 s' myId (optional i (fun i => "#" ++ i))
    /\ (forall f, f <> tag -> f <> myId -> get h1 s' f = VUndef).
Proof.
  intros Hp Ha Hi Ht Hrest. unfold shows. destruct i as [i|].
  - assert (Hi' : i <> EmptyString) by congruence.
    pose (obj := if truthy (get h s tag) then s else Obj (length (objs h))).
    assert (Hobj : allocated (alloc_obj h) obj).
    { unfold obj. destruct (truthy (get h s tag));
        [allocated_tac | apply allocated_fresh]. }
    assert (Hget : forall f, f <> myId ->
              get (assign (alloc_obj h) obj myId (VStr i)) obj f
              = if truthy (get h s tag) then get h s f else VUndef).
    { intros f Hf. rewrite get_assign_field by congruence. unfold obj.
      destruct (truthy (get h s tag)).
      - apply get_alloc_obj.
      - rewrite get_fresh. now apply pristine_get. }
    exists obj, (assign (alloc_obj h) obj myId (VStr i)).
    split; [| repeat split].
    + cbn [once chain invoke]. erewrite bind_ok;
        [| apply id_run; rewrite Hrest by discriminate; reflexivity].
      reflexivity.
    + allocated_tac.
    + apply keeps_eq. now rewrite arrays_assign.
    + rewrite Hget by discriminate.
      destruct (truthy (get h s tag)) eqn:E.
      * destruct Ht as [Ht|[e' Ht]]; rewrite Ht;
          [reflexivity | now rewrite !part_tag_string].
      * unfold part. now rewrite E.
    + rewrite Hget by discriminate.
      destruct (truthy (get h s tag)); [| reflexivity].
      destruct Ht as [Ht|[e' Ht]]; rewrite Ht; reflexivity.
    + rewrite get_assign_same by assumption. now apply part_myId_string.
    + rewrite get_assign_same by assumption. reflexivity.
    + intros f Hf Hf'. rewrite Hget by assumption.
      destruct (truthy (get h s tag)); auto.
  - exists s, h. cbn [once chain]. rewrite (Hrest myId) by discriminate.
    repeat split; auto using keeps_refl.
    destruct Ht as [Ht|[e' Ht]]; rewrite Ht; reflexivity.
Qed.

Lemma chain_app_ok (r r' : ref) (cs ds : list call) (h h' : heap) :
  chain r cs h = (Ok r', h') -> chain r (cs ++ ds) h = chain r' ds h'.
Proof. intros H. rewrite chain_app. unfold bind. now rewrite H. Qed.

Lemma shows_keeps (h h' : heap) (s : ref) (f : field) (text : string) :
  keeps h h' -> get h' s f = get h s f -> shows h s f text -> shows h' s f text.
Proof.
  intros K G [Hp Hok]. unfold shows. rewrite G.
  destruct (part_keeps h h' f (get h s f) K Hok) as [-> ->]. auto.
Qed.

Lemma shows_undefined (h : heap) (s : ref) (f : field) :
  get h s f = VUndef -> shows h s f EmptyString.
Proof. intros G. unfold shows. rewrite G. split; reflexivity. Qed.

(** A selector whose seven properties show seven texts renders as their
    concatenation. *)
Lemma stringify_shows (h : heap) (s : ref) (t i c a p e k : string) :
  shows h s tag t -> shows h s myId i -> shows h s classes c ->
  shows h s attribute a -> shows h s pseudoClasses p ->
  shows h s pseudoElem e -> shows h s combination k ->
  stringify s h = (Ok (t ++ i ++ c ++ a ++ p ++ e ++ k), reset h s).
Proof.
  intros [Ht Ht'] [Hi Hi'] [Hc Hc'] [Ha Ha'] [Hp Hp'] [He He'] [Hk Hk'].
  rewrite stringify_spec by (intros f; destruct f; assumption).
  unfold render. now rewrite Ht, Hi, Hc, Ha, Hp, He, Hk.
Qed.

(** The chain of calls that appends the fragments [x] in the order of the
    grammar, started on a builder that carries no fragment, returns a
    selector that shows each fragment in its place. *)
Lemma chain_calls_of (h : heap) (x : fragments) :
  pristine h -> the_id x <> Some EmptyString ->
  exists s h',
    chain Builder (calls_of x) h = (Ok s, h')
    /\ shows h' s tag (optional (the_element x) (fun e => e))
    /\ shows h' s myId (optional (the_id x) (fun i => "#" ++ i))
    /\ shows h' s classes
         (String.concat EmptyString (map (fun c => "." ++ c) (the_classes x)))
    /\ shows h' s attribute (optional (the_attribute x) (fun a => "[" ++ a ++ "]"))
    /\ shows h' s pseudoClasses
         (String.concat EmptyString (map (fun p => ":" ++ p) (the_pseudoClasses x)))
    /\ shows h' s pseudoElem (optional (the_pseudoElement x) (fun p => "::" ++ p))
    /\ shows h' s combination EmptyString.
Proof.
  intros Hp Hid. destruct x as [e i cs a ps pe]. unfold calls_of.
  cbn [the_element the_id the_classes the_attribute the_pseudoClasses
       the_pseudoElement] in *.
  destruct (element_phase e h Hp) as (s0 & h0 & R0 & A0 & K0 & P0 & T0 & S0 & U0).
  destruct (id_phase i h0 s0 P0 A0 Hid S0 U0) as (s & h1 & R1 & A1 & K1 & T1 & I1 & U1).
  rewrite T0 in T1.
  destruct (classes_phase cs h1 s A1) as (h2 & R2 & A2 & K2 & G2 & C2);
    try (rewrite U1 by discriminate; reflexivity).
  assert (U2 : forall f, f <> tag -> f <> myId -> f <> classes -> get h2 s f = VUndef).
  { intros f H1 H2 H3. rewrite G2 by assumption. now apply U1. }
  destruct (attr_phase a h2 s A2) as (h3 & R3 & A3 & K3 & G3 & At3);
    try (apply U2; discriminate).
  destruct (pseudoClasses_phase ps h3 s A3) as (h4 & R4 & A4 & K4 & G4 & Pc4);
    try (rewrite G3 by discriminate; rewrite U2 by discriminate; reflexivity).
  destruct (pseudoElement_phase pe h4 s A4) as (h5 & R5 & A5 & K5 & G5 & Pe5);
    try (rewrite G4, G3 by discriminate; apply U2; discriminate).
  exists s, h5.
  split; [| split; [| split; [| split; [| split; [| split; [| split]]]]]].
  - rewrite (chain_app_ok _ _ _ _ _ _ R0), (chain_app_ok _ _ _ _ _ _ R1),
      (chain_app_ok _ _ _ _ _ _ R2), (chain_app_ok _ _ _ _ _ _ R3),
      (chain_app_ok _ _ _ _ _ _ R4). exact R5.
  - apply (shows_keeps h4); [assumption | now apply G5 |].
    apply (shows_keeps h3); [assumption | now apply G4 |].
    apply (shows_keeps h2); [assumption | now apply G3 |].
    apply (shows_keeps h1); [assumption | now apply G2 |]. exact T1.
  - apply (shows_keeps h4); [assumption | now apply G5 |].
    apply (shows_keeps h3); [assumption | now apply G4 |].
    apply (shows_keeps h2); [assumption | now apply G3 |].
    apply (shows_keeps h1); [assumption | now apply G2 |]. exact I1.
  - apply (shows_keeps h4); [assumption | now apply G5 |].
    apply (shows_keeps h3); [assumption | now apply G4 |].
    apply (shows_keeps h2); [assumption | now apply G3 |]. exact C2.
  - apply (shows_keeps h4); [assumption | now apply G5 |].
    apply (shows_keeps h3); [assumption | now apply G4 |]. exact At3.
  - apply (shows_keeps h4); [assumption | now apply G5 |]. exact Pc4.
  - exact Pe5.
  - apply shows_undefined.
    rewrite G5, G4, G3 by discriminate. apply U2; discriminate.
Qed.

(** ** Every reachable heap is well formed *)

Lemma wf_push (h : heap) (a : nat) (l : list string) (x : string) :
  wf h -> array_of h a = Some l -> wf (push_arr h a l x).
Proof.
  intros H E. apply (wf_grows h); auto. now apply grows_push.
Qed.

(** The first [push] of a new array, stored in an array property [f]. *)
Lemma wf_first_push (h : heap) (this : ref) (f : field) (x : string) :
  wf h -> f = classes \/ f = pseudoClasses ->
  wf (push_arr (assign (alloc_arr h) this f (VArr (length (arrays h))))
        (length (arrays h)) [] x).
Proof.
  intros H Hf. set (a := length (arrays h)).
  set (h0 := assign (alloc_arr h) this f (VArr a)).
  assert (E0 : array_of h0 a = Some []).
  { unfold h0. rewrite array_of_assign. apply array_of_alloc_arr_new. }
  assert (Ea : array_of (push_arr h0 a [] x) a = Some [x])
    by apply (array_of_push_same h0 a [] x E0).
  assert (G : grows h (push_arr h0 a [] x)).
  { apply (grows_trans _ (alloc_arr h)); [apply grows_alloc_arr |].
    apply (grows_trans _ h0); [apply grows_eq; unfold h0; apply arrays_assign |].
    now apply grows_push. }
  apply wf_iff. intros r g v E.
  change (own_of h0 r g = Some v) in E. unfold h0 in E.
  destruct (own_of_assign_cases _ _ _ _ _ _ _ E) as [E'|[-> ->]].
  - apply (value_ok_grows h); [exact G |]. now apply (wf_own_of h r).
  - unfold value_ok. rewrite Ea. now destruct Hf as [-> | ->].
Qed.

Lemma wf_element (h : heap) (this : ref) (value : string) :
  wf h -> wf (snd (element this value h)).
Proof.
  intros H. unfold element, bind, read, fresh.
  destruct (truthy (get h this tag)); [exact H |].
  rewrite get_alloc_obj.
  destruct (truthy (get h this myId)); [now apply wf_alloc_obj |].
  apply wf_assign; [now apply wf_alloc_obj | reflexivity].
Qed.

Lemma wf_id (h : heap) (this : ref) (value : string) :
  wf h -> wf (snd (id this value h)).
Proof.
  intros H. unfold id, bind, read, fresh.
  destruct (is_undefined (get h this pseudoElem)); [| exact H]. cbn [negb].
  destruct (truthy (get h this myId)); [exact H |].
  destruct (is_undefined (get h this classes)); [| exact H]. cbn [negb].
  destruct (is_undefined (get h this pseudoClasses)); [| exact H]. cbn [negb].
  apply wf_assign; [now apply wf_alloc_obj | reflexivity].
Qed.

Lemma wf_class (h : heap) (this : ref) (value : string) :
  wf h -> allocated h this -> wf (snd (class this value h)).
Proof.
  intros H Ha.
  destruct (truthy (get h this attribute)) eqn:Hat.
  { unfold class, bind, read. now rewrite Hat. }
  pose proof (wf_get h this classes H) as Hok.
  destruct (get h this classes) as [|s|a] eqn:Hc; [| discriminate |].
  - rewrite class_first by assumption.
    apply wf_assign; [| reflexivity]. apply wf_first_push; auto.
  - simpl in Hok. destruct (array_of h a) as [l|] eqn:El; [| discriminate].
    rewrite (class_next h this value a l) by assumption.
    apply wf_assign; [| reflexivity]. now apply wf_push.
Qed.

Lemma wf_attr (h : heap) (this : ref) (value : string) :
  wf h -> wf (snd (attr this value h)).
Proof.
  intros H. unfold attr, bind, read, write.
  destruct (is_undefined (get h this pseudoClasses)); [| exact H]. cbn [negb].
  repeat (apply wf_assign; [| reflexivity]). exact H.
Qed.

Lemma wf_pseudoClass (h : heap) (this : ref) (value : string) :
  wf h -> allocated h this -> wf (snd (pseudoClass this value h)).
Proof.
  intros H Ha.
  destruct (truthy (get h this pseudoElem)) eqn:Hpe.
  { unfold pseudoClass, bind, read, write. rewrite Hpe.
    now apply wf_assign. }
  pose proof (wf_get h this pseudoClasses H) as Hok.
  destruct (get h this pseudoClasses) as [|s|b] eqn:Hpc; [| discriminate |].
  - rewrite pseudoClass_first by assumption. apply wf_first_push; auto.
  - simpl in Hok. destruct (array_of h b) as [l|] eqn:El; [| discriminate].
    rewrite (pseudoClass_next h this value b l) by assumption.
    now apply wf_push.
Qed.

Lemma wf_pseudoElement (h : heap) (this : ref) (value : string) :
  wf h -> wf (snd (pseudoElement this value h)).
Proof.
  intros H. unfold pseudoElement, bind, read, write.
  destruct (truthy (get h this pseudoElem)); [exact H |].
  now apply wf_assign.
Qed.

Lemma wf_perform (h : heap) (o : op) :
  wf h -> receivers h o -> wf (perform o h).
Proof.
  intros H Hr. destruct o as [this c|this|l c r]; simpl.
  - destruct c; simpl;
      auto using wf_element, wf_id, wf_class, wf_attr, wf_pseudoClass, wf_pseudoElement.
  - rewrite stringify_wf by assumption. now apply wf_reset.
  - rewrite combine_spec by assumption.
    apply wf_assign; [| reflexivity]. now apply wf_alloc_obj, wf_reset, wf_reset.
Qed.

(** Whatever calls were made before, in whatever order and whether they
    returned or threw, the heap is well formed. *)
Lemma reachable_wf (h : heap) : reachable h -> wf h.
Proof.
  induction 1 as [|h o _ IH Hr]; [exact wf_initial | now apply wf_perform].
Qed.

(** * The claims *)

(** C4.  After [stringify] returns, the instance owns every one of the seven
    fragment properties with the value [undefined], and calling [stringify]
    on it again returns the empty string. *)
Theorem stringify_resets_instance (h : heap) (this : ref) :
  wf h -> allocated h this ->
  exists s h1 h2,
    stringify this h = (Ok s, h1)
    /\ (forall f, own_of h1 this f = Some VUndef)
    /\ stringify this h1 = (Ok EmptyString, h2).
Proof.
  intros Hwf Ha. exists (render h this), (reset h this), (reset (reset h this) this).
  split; [now apply stringify_wf |].
  split; [intros f; now apply own_of_reset_same |].
  rewrite (stringify_wf _ _ (wf_reset _ _ Hwf)).
  now rewrite render_reset.
Qed.

(** C6.  In every well-formed heap [stringify] returns a string and [combine]
    returns a selector, whatever fragments the selectors carry: neither
    throws. *)
Theorem combine_and_stringify_never_raise
  (h : heap) (this selector1 selector2 : ref) (combinator : string) :
  wf h ->
  (exists s h', stringify this h = (Ok s, h'))
  /\ (exists c h', combine selector1 combinator selector2 h = (Ok c, h')).
Proof.
  intros Hwf. split.
  - eexists _, _. now apply stringify_wf.
  - eexists _, _. now apply combine_spec.
Qed.

(** C7.  After [combine] returns, each of the two selectors it was given owns
    every one of the seven fragment properties with the value [undefined],
    and [stringify] on either of them returns the empty string. *)
Theorem combine_consumes_children
  (h : heap) (selector1 selector2 : ref) (combinator : string) :
  wf h -> allocated h selector1 -> allocated h selector2 ->
  exists c h1,
    combine selector1 combinator selector2 h = (Ok c, h1)
    /\ (forall f, own_of h1 selector1 f = Some VUndef)
    /\ (forall f, own_of h1 selector2 f = Some VUndef)
    /\ (exists h2, stringify selector1 h1 = (Ok EmptyString, h2))
    /\ (exists h2, stringify selector2 h1 = (Ok EmptyString, h2)).
Proof.
  intros Hwf H1 H2. eexists _, _.
  split; [now apply combine_spec |].
  assert (G1 : forall f, own_of
    (assign (alloc_obj (reset (reset h selector1) selector2))
       (Obj (length (objs (reset (reset h selector1) selector2)))) combination
       (VStr (render h selector1 ++ " " ++ combinator ++ " "
              ++ render (reset h selector1) selector2))) selector1 f = Some VUndef).
  { intros f. apply own_of_combine_child; auto. }
  assert (G2 : forall f, own_of
    (assign (alloc_obj (reset (reset h selector1) selector2))
       (Obj (length (objs (reset (reset h selector1) selector2)))) combination
       (VStr (render h selector1 ++ " " ++ combinator ++ " "
              ++ render (reset h selector1) selector2))) selector2 f = Some VUndef).
  { intros f. apply own_of_combine_child; auto. }
  repeat split; try assumption; eexists; now apply stringify_blank.
Qed.

(** C8.  On a selector whose pseudo-element is set, [pseudoClass] throws the
    order error, and in the heap it leaves the selector's [pseudoElem] reads
    [undefined]. *)
Theorem pseudoClass_after_pseudoElement (h : heap) (this : ref) (value : string) :
  allocated h this -> truthy (get h this pseudoElem) = true ->
  exists h',
    pseudoClass this value h = (Throw OrderViolation, h')
    /\ get h' this pseudoElem = VUndef.
Proof.
  intros Ha Ht. exists (assign h this pseudoElem VUndef). split.
  - unfold pseudoClass, bind, read. rewrite Ht. reflexivity.
  - now apply get_assign_same.
Qed.

(** C9.  [pseudoElement] looks at nothing but [this.pseudoElem]: when that is
    not set the call returns [this] with the pseudo-element stored, whatever
    else the selector holds; when it is set the call throws the duplicate
    error; it never throws the order error. *)
Theorem pseudoElement_checks_duplicate_only (h : heap) (this : ref) (value : string) :
  (truthy (get h this pseudoElem) = false ->
   pseudoElement this value h
   = (Ok this, assign h this pseudoElem (VStr ("::" ++ value))))
  /\ (truthy (get h this pseudoElem) = true ->
      pseudoElement this value h = (Throw DuplicateFragment, h))
  /\ fst (pseudoElement this value h) <> Throw OrderViolation.
Proof.
  unfold pseudoElement, bind, read.
  destruct (truthy (get h this pseudoElem)); repeat split; try discriminate.
Qed.

(** C2, amended.  [stringify] returns the concatenation, in the fixed order
    [tag], [myId], [classes], [attribute], [pseudoClasses], [pseudoElem],
    [combination], of what each property that is set adds; and for the
    fragments appended in the order of the grammar on a builder that carries
    none, with an id that is not the empty string, this is the element, [#]
    and the id, each class after a [.], the attribute in brackets, each
    pseudo-class after a [:], and the pseudo-element after [::]. *)
Theorem stringify_renders_fragments :
  (forall (h : heap) (this : ref),
      wf h -> stringify this h = (Ok (render h this), reset h this))
  /\ (forall (h : heap) (x : fragments),
        pristine h -> the_id x <> Some EmptyString ->
        exists s h1 h2,
          chain Builder (calls_of x) h = (Ok s, h1)
          /\ stringify s h1 = (Ok (render_fragments x), h2)).
Proof.
  split; [exact stringify_wf |].
  intros h x Hp Hid.
  destruct (chain_calls_of h x Hp Hid) as (s & h1 & R & T & I & C & A & P & E & K).
  exists s, h1, (reset h1 s). split; [exact R |].
  rewrite (stringify_shows _ _ _ _ _ _ _ _ _ T I C A P E K).
  unfold render_fragments. now rewrite append_nil_r.
Qed.

(** C2, the two examples of the documentation:
    [builder.id('main').class('container').class('editable').stringify()] and
    [builder.element('a').attr('href$=".png"').pseudoClass('focus').stringify()]. *)
Lemma stringify_renders_fragments_examples :
  (exists s h1 h2,
      chain Builder [Id "main"; Class "container"; Class "editable"] initial = (Ok s, h1)
      /\ stringify s h1 = (Ok "#main.container.editable", h2))
  /\ (exists s h1 h2,
        chain Builder [Element "a"; Attr ("href$=" ++ dquote ++ ".png" ++ dquote);
                       PseudoClass "focus"] initial = (Ok s, h1)
        /\ stringify s h1
           = (Ok ("a[href$=" ++ dquote ++ ".png" ++ dquote ++ "]:focus"), h2)).
Proof.
  split.
  - apply (proj2 stringify_renders_fragments initial
             (mkFragments None (Some "main") ["container"; "editable"] None [] None));
      [reflexivity | discriminate].
  - apply (proj2 stringify_renders_fragments initial
             (mkFragments (Some "a") None [] (Some ("href$=" ++ dquote ++ ".png" ++ dquote))
                ["focus"] None));
      [reflexivity | discriminate].
Defined.

(** C2, as the claim states it, fails at the empty id: for
    [builder.element('div').id('')] the format of the claim is [div#], and
    [stringify] tests [this.myId] for truthiness and adds no [#]. *)
Lemma stringify_empty_id_counterexample :
  ~ (exists s h1 h2,
        chain Builder
          (calls_of (mkFragments (Some "div") (Some EmptyString) [] None [] None))
          initial = (Ok s, h1)
        /\ stringify s h1
           = (Ok (render_fragments
                    (mkFragments (Some "div") (Some EmptyString) [] None [] None)),
              h2)).
Proof.
  intros (s & h1 & h2 & R & S).
  vm_compute in R. injection R as <- <-.
  vm_compute in S. discriminate S.
Qed.

(** What the code renders there, and what the format of the claim gives. *)
Example stringify_empty_id_output :
  run (s <- chain Builder [Element "div"; Id EmptyString] ;; stringify s) = Ok "div"
  /\ render_fragments (mkFragments (Some "div") (Some EmptyString) [] None [] None)
     = "div#".
Proof. split; reflexivity. Qed.

(** ** Duplicates *)

Lemma element_inv (h h1 : heap) (this s : ref) (value : string) :
  element this value h = (Ok s, h1) ->
  truthy (get h this tag) = false
  /\ truthy (get h this myId) = false
  /\ s = Obj (length (objs h))
  /\ h1 = assign (alloc_obj h) (Obj (length (objs h))) tag (VStr value).
Proof.
  unfold element, bind, read, fresh.
  destruct (truthy (get h this tag)); [discriminate |].
  rewrite get_alloc_obj.
  destruct (truthy (get h this myId)); [discriminate |].
  unfold write, ret. intros [= <- <-]. auto.
Qed.

Lemma pseudoElement_inv (h h1 : heap) (this s : ref) (value : string) :
  pseudoElement this value h = (Ok s, h1) ->
  s = this /\ h1 = assign h this pseudoElem (VStr ("::" ++ value)).
Proof.
  unfold pseudoElement, bind, read.
  destruct (truthy (get h this pseudoElem)); [discriminate |].
  unfold write, ret. intros [= <- <-]. auto.
Qed.

(** C3, as the claim states it, fails for [id]: on
    [builder.element('a').id('b').pseudoElement('c')] the id is set, and
    [id('d')] throws the order error, not the duplicate error. *)
Lemma id_duplicate_counterexample : ~ duplicate_rejected id myId.
Proof.
  intros H.
  specialize (H id_and_pseudoElement (Obj 0) "d" eq_refl).
  vm_compute in H. discriminate H.
Qed.

(** C3, amended.  [element] on a selector whose element is set, and
    [pseudoElement] on a selector whose pseudo-element is set, throw the
    duplicate error; [id] on a selector whose id is set throws the duplicate
    error when [this.pseudoElem] is [undefined], and the order error when it
    is not.  In particular a second [element] on the selector that
    [element(a)] returned, for a non-empty [a], and a second [pseudoElement]
    on the selector that [pseudoElement(a)] returned, throw the duplicate
    error. *)
Theorem duplicate_fragment_rejected :
  duplicate_rejected element tag
  /\ duplicate_rejected pseudoElement pseudoElem
  /\ (forall h this value,
        truthy (get h this myId) = true ->
        fst (id this value h)
        = Throw (if is_undefined (get h this pseudoElem)
                 then DuplicateFragment else OrderViolation))
  /\ (forall h this a b s h1,
        a <> EmptyString -> element this a h = (Ok s, h1) ->
        fst (element s b h1) = Throw DuplicateFragment)
  /\ (forall h this a b s h1,
        allocated h this -> pseudoElement this a h = (Ok s, h1) ->
        fst (pseudoElement s b h1) = Throw DuplicateFragment).
Proof.
  assert (He : duplicate_rejected element tag).
  { intros h this value Ht. unfold element, bind, read. now rewrite Ht. }
  assert (Hp : duplicate_rejected pseudoElement pseudoElem).
  { intros h this value Ht. unfold pseudoElement, bind, read. now rewrite Ht. }
  split; [exact He |]. split; [exact Hp |]. split; [| split].
  - intros h this value Ht. unfold id, bind, read.
    destruct (is_undefined (get h this pseudoElem)); cbn [negb]; [| reflexivity].
    now rewrite Ht.
  - intros h this a b s h1 Ha Hrun.
    destruct (element_inv _ _ _ _ _ Hrun) as (_ & _ & -> & ->).
    apply He. rewrite get_assign_same by apply allocated_fresh.
    destruct a; [congruence | reflexivity].
  - intros h this a b s h1 Ha Hrun.
    destruct (pseudoElement_inv _ _ _ _ _ Hrun) as (-> & ->).
    apply Hp. now rewrite get_assign_same.
Qed.

(** C3, at [builder.element('a')] and [builder.pseudoElement('c')]: the
    second [element] and the second [pseudoElement] throw the duplicate
    error. *)
Lemma duplicate_fragment_rejected_examples :
  fst ((s <- element Builder "a" ;; element s "b") initial) = Throw DuplicateFragment
  /\ fst ((s <- pseudoElement Builder "c" ;; pseudoElement s "d") initial)
     = Throw DuplicateFragment.
Proof.
  split.
  - apply (proj1 (proj2 (proj2 (proj2 duplicate_fragment_rejected)))
             initial Builder "a" "b" (Obj 0)
             (snd (element Builder "a" initial)));
      [discriminate | reflexivity].
  - apply (proj2 (proj2 (proj2 (proj2 duplicate_fragment_rejected)))
             initial Builder "c" "d" Builder
             (snd (pseudoElement Builder "c" initial)));
      [exact I | reflexivity].
Defined.

(** ** Order *)

(** The order checks the methods do make: [element] rejects a selector with
    an id, [id] one with a pseudo-element, a class or a pseudo-class, [class]
    one with an attribute, [attr] one with a pseudo-class, and [pseudoClass]
    one with a pseudo-element. *)
Lemma order_checks_made (h : heap) (this : ref) (value : string) :
  (truthy (get h this tag) = false -> truthy (get h this myId) = true ->
   fst (element this value h) = Throw OrderViolation)
  /\ (is_undefined (get h this pseudoElem) = false ->
      fst (id this value h) = Throw OrderViolation)
  /\ (truthy (get h this myId) = false ->
      is_undefined (get h this classes) = false
      \/ is_undefined (get h this pseudoClasses) = false ->
      fst (id this value h) = Throw OrderViolation)
  /\ (truthy (get h this attribute) = true ->
      fst (class this value h) = Throw OrderViolation)
  /\ (is_undefined (get h this pseudoClasses) = false ->
      fst (attr this value h) = Throw OrderViolation)
  /\ (truthy (get h this pseudoElem) = true ->
      fst (pseudoClass this value h) = Throw OrderViolation).
Proof.
  repeat split.
  - intros Ht Hi. unfold element, bind, read, fresh.
    now rewrite Ht, get_alloc_obj, Hi.
  - intros Hpe. unfold id, bind, read. now rewrite Hpe.
  - intros Hi Hc. unfold id, bind, read.
    destruct (is_undefined (get h this pseudoElem)); [| reflexivity].
    cbn [negb]. rewrite Hi.
    destruct (is_undefined (get h this classes)); [| reflexivity].
    cbn [negb]. destruct Hc as [Hc|Hc]; [discriminate | now rewrite Hc].
  - intros Ha. unfold class, bind, read. now rewrite Ha.
  - intros Hpc. unfold attr, bind, read. now rewrite Hpc.
  - intros Hpe. unfold pseudoClass, bind, read. now rewrite Hpe.
Qed.

(** C1 fails on the code: the checks above are all there are.  [class] looks
    at the attribute only: called after [pseudoElement] it is accepted and
    the class is rendered before the pseudo-element, and called after
    [pseudoClass] it is accepted and the pseudo-class is dropped.  [id] does
    not look at the attribute, [attr] does not look at the pseudo-element,
    and [element] looks at the id only. *)
Theorem out_of_order_appends_accepted :
  run (s <- chain Builder [Element "div"; PseudoElement "after"; Class "x"] ;; stringify s)
  = Ok "div.x::after"
  /\ run (s <- chain Builder [Element "div"; PseudoClass "hover"; Class "x"] ;; stringify s)
     = Ok "div.x"
  /\ run (s <- chain Builder [Element "div"; Attr "x"; Id "y"] ;; stringify s)
     = Ok "div#y[x]"
  /\ run (s <- chain Builder [Element "div"; PseudoElement "after"; Attr "x"] ;; stringify s)
     = Ok "div[x]"
  /\ run (s <- chain Builder [Class "a"; Element "div"] ;; stringify s)
     = Ok "div.a".
Proof. repeat split. Qed.

(** ** The composite selector *)

Lemma pristine_reset (h : heap) (r : ref) : pristine h -> pristine (reset h r).
Proof.
  intros Hp. apply pristine_intro. intros f. destruct r as [|n].
  - now apply get_reset.
  - rewrite get_reset_other by discriminate. now apply pristine_get.
Qed.

(** Resetting one selector leaves what another reads, when the builder
    carries no fragment. *)
Lemma get_reset_distinct (h : heap) (l r : ref) (f : field) :
  pristine h -> l <> r -> get (reset h l) r f = get h r f.
Proof.
  intros Hp Hlr. destruct l as [|n]; [| now apply get_reset_other].
  rewrite !get_unfold. rewrite own_of_reset_other by assumption.
  destruct (own_of h r f); [reflexivity |].
  rewrite own_of_reset_same by exact I.
  pose proof (pristine_get h f Hp) as G. rewrite get_unfold in G.
  destruct (own_of h Builder f); auto.
Qed.

Lemma render_reset_distinct (h : heap) (l r : ref) :
  pristine h -> l <> r -> render (reset h l) r = render h r.
Proof.
  intros Hp Hlr. unfold render.
  rewrite !get_reset_distinct by assumption.
  now rewrite !(part_arrays h (reset h l)) by apply arrays_reset.
Qed.

Lemma part_combination_string (h : heap) (s : string) :
  part h combination (VStr s) = s.
Proof. destruct s; reflexivity. Qed.

(** A new object that owns [combination] only, under a builder that carries
    no fragment, renders as that string. *)
Lemma stringify_composite (h : heap) (text : string) :
  pristine h ->
  let c := Obj (length (objs h)) in
  let h1 := assign (alloc_obj h) c combination (VStr text) in
  stringify c h1 = (Ok text, reset h1 c).
Proof.
  intros Hp c h1.
  assert (G : forall f, f <> combination -> get h1 c f = VUndef).
  { intros f Hf. unfold h1. rewrite get_assign_field by congruence.
    unfold c. rewrite get_fresh. now apply pristine_get. }
  assert (Gc : get h1 c combination = VStr text).
  { unfold h1. apply get_assign_same. apply allocated_fresh. }
  rewrite (stringify_shows h1 c EmptyString EmptyString EmptyString EmptyString
             EmptyString EmptyString text);
    try (apply shows_undefined; apply G; discriminate).
  - reflexivity.
  - unfold shows. rewrite Gc. split; [apply part_combination_string | reflexivity].
Qed.

(** C5, as the claim states it, fails when the builder itself carries a
    fragment: after [builder.attr('x')] the selectors [builder.element('div')]
    and [builder.element('span')] render as [div[x]] and [span[x]], and the
    selector [combine] makes of them as [[x]div[x] + span[x]]. *)
Lemma combine_joins_counterexample :
  ~ combine_joins attr_left_on_builder (Obj 0) "+" (Obj 1).
Proof.
  intros H.
  destruct (H "div[x]" "span[x]" eq_refl eq_refl) as (c & h1 & h2 & Hc & Hs).
  vm_compute in Hc. injection Hc as <- <-.
  vm_compute in Hs. discriminate Hs.
Qed.

(** The same selector given twice is rendered once: the second rendering
    finds it reset. *)
Example combine_same_instance :
  run (s <- element Builder "div" ;; c <- combine s "+" s ;; stringify c)
  = Ok "div + ".
Proof. reflexivity. Qed.

(** C5, amended.  When the builder carries no fragment and [left] and [right]
    are two different objects, the selector [combine] makes of them renders
    as the rendering of [left], the combinator between two spaces, and the
    rendering of [right]. *)
Theorem combine_joins_renderings
  (h : heap) (left right : ref) (combinator : string) :
  wf h -> pristine h -> left <> right ->
  combine_joins h left combinator right.
Proof.
  intros Hwf Hp Hlr sl sr Hl Hr.
  rewrite (stringify_wf h left Hwf) in Hl. injection Hl as <-.
  rewrite (stringify_wf h right Hwf) in Hr. injection Hr as <-.
  eexists _, _, _. split; [now apply combine_spec |].
  rewrite (render_reset_distinct h left right Hp Hlr).
  apply (stringify_composite (reset (reset h left) right)).
  now apply pristine_reset, pristine_reset.
Qed.

(** C5, the example of the documentation:
    [combine(element('div').id('main'), '+', element('span'))] renders as
    [div#main + span]. *)
Lemma combine_joins_renderings_example :
  exists c h1 h2,
    combine (Obj 0) "+" (Obj 2) div_main_and_span = (Ok c, h1)
    /\ stringify c h1 = (Ok "div#main + span", h2).
Proof.
  apply (combine_joins_renderings div_main_and_span (Obj 0) (Obj 2) "+"
           ltac:(reflexivity) ltac:(reflexivity) ltac:(discriminate)
           "div#main" "span");
    reflexivity.
Defined.

(** ** The empty string *)

Lemma is_undefined_true (v : value) : is_undefined v = true -> v = VUndef.
Proof. destruct v; [reflexivity | discriminate | discriminate]. Qed.

Lemma id_inv (h h1 : heap) (this s : ref) (value : string) :
  id this value h = (Ok s, h1) ->
  get h this pseudoElem = VUndef
  /\ truthy (get h this myId) = false
  /\ get h this classes = VUndef
  /\ get h this pseudoClasses = VUndef
  /\ s = (if truthy (get h this tag) then this else Obj (length (objs h)))
  /\ h1 = assign (alloc_obj h) s myId (VStr value).
Proof.
  unfold id, bind, read, fresh.
  destruct (is_undefined (get h this pseudoElem)) eqn:E1; [| discriminate].
  cbn [negb].
  destruct (truthy (get h this myId)) eqn:E2; [discriminate |].
  destruct (is_undefined (get h this classes)) eqn:E3; [| discriminate].
  cbn [negb].
  destruct (is_undefined (get h this pseudoClasses)) eqn:E4; [| discriminate].
  cbn [negb]. rewrite get_alloc_obj. unfold write, ret.
  intros [= <- <-]. repeat split; auto using is_undefined_true.
Qed.





(** ** The theorems above at selectors built from the initial heap *)

(** C4 at [builder.element('div').id('main')]. *)
Lemma stringify_resets_instance_example :
  exists s h1 h2,
    stringify (Obj 0) div_main_and_span = (Ok s, h1)
    /\ (forall f, own_of h1 (Obj 0) f = Some VUndef)
    /\ stringify (Obj 0) h1 = (Ok EmptyString, h2).
Proof.
  apply (stringify_resets_instance div_main_and_span (Obj 0)).
  - reflexivity.
  - vm_compute. lia.
Defined.

(** C6 at [builder.element('div').id('main')] and [builder.element('span')]. *)
Lemma combine_and_stringify_never_raise_example :
  (exists s h', stringify (Obj 0) div_main_and_span = (Ok s, h'))
  /\ (exists c h', combine (Obj 0) ">" (Obj 2) div_main_and_span = (Ok c, h')).
Proof.
  apply (combine_and_stringify_never_raise div_main_and_span (Obj 0) (Obj 0) (Obj 2) ">").
  reflexivity.
Defined.

(** C7 at [builder.element('div').id('main')] and [builder.element('span')]. *)
Lemma combine_consumes_children_example :
  exists c h1,
    combine (Obj 0) "~" (Obj 2) div_main_and_span = (Ok c, h1)
    /\ (forall f, own_of h1 (Obj 0) f = Some VUndef)
    /\ (forall f, own_of h1 (Obj 2) f = Some VUndef)
    /\ (exists h2, stringify (Obj 0) h1 = (Ok EmptyString, h2))
    /\ (exists h2, stringify (Obj 2) h1 = (Ok EmptyString, h2)).
Proof.
  apply (combine_consumes_children div_main_and_span (Obj 0) (Obj 2) "~").
  - reflexivity.
  - vm_compute. lia.
  - vm_compute. lia.
Defined.

(** C8 at [builder.element('a').id('b').pseudoElement('c')]. *)
Lemma pseudoClass_after_pseudoElement_example :
  exists h',
    pseudoClass (Obj 0) "hover" id_and_pseudoElement = (Throw OrderViolation, h')
    /\ get h' (Obj 0) pseudoElem = VUndef.
Proof.
  apply (pseudoClass_after_pseudoElement id_and_pseudoElement (Obj 0) "hover").
  - vm_compute. lia.
  - reflexivity.
Defined.

(** C9 at the builder itself, as the first call of a chain, and a second
    time on the selector the first call returned. *)
Lemma pseudoElement_checks_duplicate_only_example :
  pseudoElement Builder "after" initial
  = (Ok Builder, assign initial Builder pseudoElem (VStr "::after"))
  /\ pseudoElement Builder "before" (assign initial Builder pseudoElem (VStr "::after"))
     = (Throw DuplicateFragment, assign initial Builder pseudoElem (VStr "::after")).
Proof.
  split.
  - apply (proj1 (pseudoElement_checks_duplicate_only initial Builder "after")).
    reflexivity.
  - apply (proj1 (proj2 (pseudoElement_checks_duplicate_only
                           (assign initial Builder pseudoElem (VStr "::after"))
                           Builder "before"))).
    reflexivity.
Defined.

(** * Further properties of the builder *)

(** ** What a call leaves alone *)

(** [element] writes to the new object only: whether it returns or throws,
    what the existing objects read is what they read before. *)
Lemma element_frame (h : heap) (this r : ref) (value : string) (f : field) :
  allocated h r -> get (snd (element this value h)) r f = get h r f.
Proof.
  intros Hr. unfold element, bind, read, fresh.
  destruct (truthy (get h this tag)); [reflexivity |].
  rewrite get_alloc_obj.
  destruct (truthy (get h this myId)); cbn [snd write ret fst].
  - apply get_alloc_obj.
  - rewrite get_assign_ref by now apply allocated_neq_fresh.
    apply get_alloc_obj.
Qed.

Lemma class_frame (h : heap) (this r : ref) (value : string) (f : field) :
  f <> classes -> f <> pseudoClasses ->
  get (snd (class this value h)) r f = get h r f.
Proof.
  intros H1 H2. unfold class, bind, read, new_array, write, push, ret, throw.
  destruct (truthy (get h this attribute)); [reflexivity |].
  destruct (is_undefined (get h this classes)); cbv beta iota.
  - destruct (get (assign (alloc_arr h) this classes (VArr (length (arrays h)))) this classes)
      as [|s|a]; cbn [snd];
      try (now rewrite get_assign_field by congruence).
    destruct (array_of _ a); cbn [snd];
      rewrite ?get_assign_field by congruence; try rewrite get_push_arr;
      now rewrite ?get_assign_field by congruence.
  - destruct (get h this classes) as [|s|a]; cbn [snd]; try reflexivity.
    destruct (array_of h a); cbn [snd]; [| reflexivity].
    now rewrite get_assign_field by congruence.
Qed.

Lemma attr_frame (h : heap) (this r : ref) (value : string) (f : field) :
  f <> attribute -> f <> pseudoClasses -> f <> pseudoElem ->
  get (snd (attr this value h)) r f = get h r f.
Proof.
  intros H1 H2 H3. unfold attr, bind, read, write, ret, throw.
  destruct (is_undefined (get h this pseudoClasses)); cbn [negb snd];
    [| reflexivity].
  now rewrite !get_assign_field by congruence.
Qed.

Lemma pseudoClass_frame (h : heap) (this r : ref) (value : string) (f : field) :
  f <> pseudoClasses -> f <> pseudoElem ->
  get (snd (pseudoClass this value h)) r f = get h r f.
Proof.
  intros H1 H2. unfold pseudoClass, bind, read, new_array, write, push, ret, throw.
  destruct (truthy (get h this pseudoElem)); cbn [snd];
    [now rewrite get_assign_field by congruence |].
  destruct (is_undefined (get h this pseudoClasses)); cbv beta iota.
  - destruct (get (assign (alloc_arr h) this pseudoClasses (VArr (length (arrays h))))
                this pseudoClasses) as [|s|a]; cbn [snd];
      try (now rewrite get_assign_field by congruence).
    destruct (array_of _ a); cbn [snd]; try rewrite get_push_arr;
      now rewrite get_assign_field by congruence.
  - destruct (get h this pseudoClasses) as [|s|a]; cbn [snd]; try reflexivity.
    destruct (array_of h a); reflexivity.
Qed.

Lemma pseudoElement_frame (h : heap) (this r : ref) (value : string) (f : field) :
  f <> pseudoElem -> get (snd (pseudoElement this value h)) r f = get h r f.
Proof.
  intros H1. unfold pseudoElement, bind, read, write, ret, throw.
  destruct (truthy (get h this pseudoElem)); cbn [snd]; [reflexivity |].
  now rewrite get_assign_field by congruence.
Qed.

(** [id] writes to [this] only when [this] has an element, and to a new
    object otherwise. *)
Lemma id_frame (h : heap) (this r : ref) (value : string) (f : field) :
  allocated h r ->
  f <> myId \/ truthy (get h this tag) = false
  \/ (this <> Builder /\ r <> this) ->
  get (snd (id this value h)) r f = get h r f.
Proof.
  intros Hr Hor. unfold id, bind, read, fresh, write, ret, throw.
  destruct (is_undefined (get h this pseudoElem)); cbn [negb snd]; [| reflexivity].
  destruct (truthy (get h this myId)); cbn [snd]; [reflexivity |].
  destruct (is_undefined (get h this classes)); cbn [negb snd]; [| reflexivity].
  destruct (is_undefined (get h this pseudoClasses)); cbn [negb snd]; [| reflexivity].
  rewrite get_alloc_obj.
  destruct (truthy (get h this tag)) eqn:Et.
  - destruct Hor as [Hf|[Hc|[Hb Hne]]]; [| discriminate |].
    + rewrite get_assign_field by congruence. apply get_alloc_obj.
    + destruct this as [|n]; [congruence |].
      rewrite get_assign_ref by congruence. apply get_alloc_obj.
  - rewrite get_assign_ref by now apply allocated_neq_fresh.
    apply get_alloc_obj.
Qed.

(** ** What the fragment calls do to a selector *)



(** X2.  [attr] on a selector with a pseudo-element and no pseudo-class is
    accepted, and the pseudo-element is gone: the selector then renders as
    its element, id and classes, the new attribute, and nothing after it. *)
Theorem attr_drops_pseudoElement (h : heap) (this : ref) (value : string) :
  wf h -> allocated h this -> get h this pseudoClasses = VUndef ->
  exists h1 h2,
    attr this value h = (Ok this, h1)
    /\ get h1 this pseudoElem = VUndef
    /\ stringify this h1
       = (Ok (part h tag (get h this tag) ++ part h myId (get h this myId)
              ++ part h classes (get h this classes) ++ "[" ++ value ++ "]"
              ++ part h combination (get h this combination)), h2).
Proof.
  intros Hwf Ha Hpc.
  set (h1 := assign (assign (assign h this attribute (VStr ("[" ++ value ++ "]")))
                       this pseudoClasses VUndef) this pseudoElem VUndef).
  assert (Hwf1 : wf h1) by (unfold h1; repeat apply wf_assign; auto).
  assert (Hpe : get h1 this pseudoElem = VUndef)
    by (unfold h1; apply get_assign_same; allocated_tac).
  assert (Hpc1 : get h1 this pseudoClasses = VUndef).
  { unfold h1. rewrite get_assign_field by discriminate.
    apply get_assign_same. allocated_tac. }
  assert (Hat : get h1 this attribute = VStr ("[" ++ value ++ "]")).
  { unfold h1. rewrite !get_assign_field by discriminate.
    now apply get_assign_same. }
  assert (G : forall f, f <> attribute -> f <> pseudoClasses -> f <> pseudoElem ->
              part h1 f (get h1 this f) = part h f (get h this f)).
  { intros f H1 H2 H3. unfold h1 at 2. rewrite !get_assign_field by congruence.
    apply part_arrays. unfold h1. now rewrite !arrays_assign. }
  exists h1, (reset h1 this). split; [now apply attr_run |]. split; [exact Hpe |].
  rewrite (stringify_wf h1 this Hwf1). unfold render.
  rewrite Hpe, Hpc1, Hat, !G by discriminate.
  rewrite !part_undefined.
  change (part h1 attribute (VStr ("[" ++ value ++ "]"))) with ("[" ++ value ++ "]").
  cbn [String.append]. now rewrite append_assoc.
Qed.

Lemma attr_drops_pseudoElement_example :
  exists h1 h2,
    attr (Obj 0) "x" id_and_pseudoElement = (Ok (Obj 0), h1)
    /\ get h1 (Obj 0) pseudoElem = VUndef
    /\ stringify (Obj 0) h1 = (Ok "a#b[x]", h2).
Proof.
  apply (attr_drops_pseudoElement id_and_pseudoElement (Obj 0) "x").
  - reflexivity.
  - vm_compute. lia.
  - reflexivity.
Defined.

Lemma wf_array (h : heap) (r : ref) (f : field) (a : nat) :
  wf h -> get h r f = VArr a -> exists l, array_of h a = Some l.
Proof.
  intros Hwf E. pose proof (wf_get h r f Hwf) as Hok. rewrite E in Hok.
  destruct f; try discriminate; simpl in Hok;
    destruct (array_of h a) as [l|]; try discriminate; now exists l.
Qed.

Lemma wf_array_field (h : heap) (r : ref) (f : field) :
  wf h -> f = classes \/ f = pseudoClasses ->
  get h r f = VUndef \/ exists a l, get h r f = VArr a /\ array_of h a = Some l.
Proof.
  intros Hwf Hf. pose proof (wf_get h r f Hwf) as Hok.
  destruct (get h r f) as [|s|a] eqn:E; [now left | |].
  - destruct Hf as [-> | ->]; discriminate.
  - right. destruct (wf_array h r f a Hwf E) as [l El]. now exists a, l.
Qed.

(** X3.  [class] appends: on a selector with no attribute, any number of
    [class] calls return the selector, and its class list is then the list
    it had followed by the new classes in the order of the calls.  The other
    properties are untouched, except that the pseudo-classes are dropped. *)
Theorem classes_append_in_order (cs : list string) (h : heap) (this : ref) :
  wf h -> allocated h this -> truthy (get h this attribute) = false ->
  exists h1,
    chain this (map Class cs) h = (Ok this, h1)
    /\ elements h1 (get h1 this classes)
       = (elements h (get h this classes) ++ cs)%list
    /\ (cs <> [] -> get h1 this pseudoClasses = VUndef)
    /\ (forall f, f <> classes -> f <> pseudoClasses ->
                  get h1 this f = get h this f).
Proof.
  intros Hwf Ha Hat. destruct cs as [|c cs].
  - exists h. rewrite app_nil_r. repeat split; auto. congruence.
  - assert (exists h0 a l,
               class this c h = (Ok this, h0)
               /\ allocated h0 this
               /\ get h0 this classes = VArr a
               /\ array_of h0 a = Some (l ++ [c])%list
               /\ l = elements h (get h this classes)
               /\ get h0 this pseudoClasses = VUndef
               /\ (forall f, f <> classes -> f <> pseudoClasses ->
                             get h0 this f = get h this f))
      as (h0 & a & l & R0 & A0 & C0 & L0 & El & P0 & G0).
    { destruct (wf_array_field h this classes Hwf (or_introl eq_refl))
        as [Hc|(a & l & Hc & Hl)].
      - eexists _, (length (arrays h)), []. split; [now apply class_first |].
        split; [allocated_tac |]. split; [| split; [| split; [| split]]].
        + rewrite get_assign_field by discriminate. rewrite get_push_arr.
          apply get_assign_same. allocated_tac.
        + rewrite array_of_assign. apply array_of_push_same.
          rewrite array_of_assign. apply array_of_alloc_arr_new.
        + now rewrite Hc.
        + apply get_assign_same. allocated_tac.
        + intros f H1 H2. rewrite get_assign_field by congruence.
          rewrite get_push_arr. now rewrite get_assign_field by congruence.
      - eexists _, a, l. split; [now apply (class_next h this c a l) |].
        split; [allocated_tac |]. split; [| split; [| split; [| split]]].
        + rewrite get_assign_field by discriminate. now rewrite get_push_arr.
        + rewrite array_of_assign. now apply array_of_push_same.
        + unfold elements. now rewrite Hc, Hl.
        + apply get_assign_same. allocated_tac.
        + intros f H1 H2. rewrite get_assign_field by congruence.
          apply get_push_arr. }
    destruct (classes_next_phase cs h0 this a (l ++ [c])%list A0)
      as (h1 & R1 & A1 & C1 & L1 & _ & G1 & P1); auto.
    { rewrite G0 by discriminate. exact Hat. }
    exists h1. split; [| split; [| split]].
    + cbn [map chain invoke]. rewrite (bind_ok _ _ _ _ _ R0). exact R1.
    + unfold elements at 1. rewrite C1, L1, <- El. now rewrite <- app_assoc.
    + intros _. auto.
    + intros f H1 H2. rewrite G1, G0; auto.
Qed.

Lemma classes_append_in_order_example :
  exists h1,
    chain (Obj 0) (map Class ["container"; "draggable"]) class_left_on_builder
    = (Ok (Obj 0), h1)
    /\ elements h1 (get h1 (Obj 0) classes) = ["a"; "container"; "draggable"]
    /\ get h1 (Obj 0) pseudoClasses = VUndef
    /\ (forall f, f <> classes -> f <> pseudoClasses ->
                  get h1 (Obj 0) f = get class_left_on_builder (Obj 0) f).
Proof.
  destruct (classes_append_in_order ["container"; "draggable"]
              class_left_on_builder (Obj 0)) as (h1 & R & E & P & G).
  - reflexivity.
  - vm_compute. lia.
  - reflexivity.
  - exists h1. repeat split; auto. apply P. discriminate.
Defined.







(** ** Errors *)

(** X7.  A call other than [pseudoClass] that throws one of the two errors
    of the builder has changed nothing: every object reads what it read
    before, and the arrays are as they were. *)
Theorem rejected_call_changes_nothing
  (h h1 : heap) (this : ref) (c : call) (message : string) :
  is_pseudoClass c = false ->
  invoke this c h = (Throw (Error message), h1) ->
  (forall r f, get h1 r f = get h r f) /\ arrays h1 = arrays h.
Proof.
  intros Hc R. destruct c as [v|v|v|v|v|v]; try discriminate Hc; cbn [invoke] in R.
  - unfold element, bind, read, fresh, write, ret, throw in R.
    destruct (truthy (get h this tag)); [injection R as _ <-; auto |].
    destruct (truthy (get (alloc_obj h) this myId)); [| discriminate].
    injection R as _ <-. split; [intros r f; apply get_alloc_obj | reflexivity].
  - unfold id, bind, read, fresh, write, ret, throw in R.
    destruct (is_undefined (get h this pseudoElem)); cbn [negb] in R;
      [| injection R as _ <-; auto].
    destruct (truthy (get h this myId)); [injection R as _ <-; auto |].
    destruct (is_undefined (get h this classes)); cbn [negb] in R;
      [| injection R as _ <-; auto].
    destruct (is_undefined (get h this pseudoClasses)); cbn [negb] in R;
      [discriminate | injection R as _ <-; auto].
  - unfold class, bind, read, new_array, write, push, ret, throw in R.
    destruct (truthy (get h this attribute)); [injection R as _ <-; auto |].
    exfalso.
    destruct (is_undefined (get h this classes)); cbv beta iota in R.
    + destruct (get (assign (alloc_arr h) this classes (VArr (length (arrays h))))
                  this classes) as [|s|a]; try discriminate.
      destruct (array_of _ a); discriminate.
    + destruct (get h this classes) as [|s|a]; try discriminate.
      destruct (array_of h a); discriminate.
  - unfold attr, bind, read, write, ret, throw in R.
    destruct (is_undefined (get h this pseudoClasses)); cbn [negb] in R;
      [discriminate | injection R as _ <-; auto].
  - unfold pseudoElement, bind, read, write, ret, throw in R.
    destruct (truthy (get h this pseudoElem)); [injection R as _ <-; auto |].
    discriminate.
Qed.

Lemma rejected_call_changes_nothing_example :
  (forall r f,
      get (snd (invoke (Obj 0) (Id "again") div_main_and_span)) r f
      = get div_main_and_span r f)
  /\ arrays (snd (invoke (Obj 0) (Id "again") div_main_and_span))
     = arrays div_main_and_span.
Proof.
  apply (rejected_call_changes_nothing div_main_and_span
           (snd (invoke (Obj 0) (Id "again") div_main_and_span)) (Obj 0) (Id "again")
           "Element, id and pseudo-element should not occur more then one time inside the selector");
    reflexivity.
Defined.

Lemma class_outcome (h : heap) (this : ref) (value : string) :
  wf h -> allocated h this ->
  class this value h = (Throw OrderViolation, h)
  \/ exists h1, class this value h = (Ok this, h1).
Proof.
  intros Hwf Ha. destruct (truthy (get h this attribute)) eqn:Hat.
  - left. unfold class, bind, read. now rewrite Hat.
  - right. destruct (wf_array_field h this classes Hwf (or_introl eq_refl))
      as [Hc|(a & l & Hc & Hl)].
    + eexists. now apply class_first.
    + eexists. now apply (class_next h this value a l).
Qed.

Lemma pseudoClass_outcome (h : heap) (this : ref) (value : string) :
  wf h -> allocated h this ->
  pseudoClass this value h = (Throw OrderViolation, assign h this pseudoElem VUndef)
  \/ exists h1, pseudoClass this value h = (Ok this, h1).
Proof.
  intros Hwf Ha. destruct (truthy (get h this pseudoElem)) eqn:Hpe.
  - left. unfold pseudoClass, bind, read. now rewrite Hpe.
  - right. destruct (wf_array_field h this pseudoClasses Hwf (or_intror eq_refl))
      as [Hc|(a & l & Hc & Hl)].
    + eexists. now apply pseudoClass_first.
    + eexists. now apply (pseudoClass_next h this value a l).
Qed.

(** X8.  Whatever calls were made before, a call of the interface on objects
    the earlier calls returned either returns or throws one of the two errors
    of the builder, never a [TypeError]; [stringify] and [combine] return. *)
Theorem only_documented_errors (h : heap) (o : op) :
  reachable h -> receivers h o ->
  (thrown o h = None \/ thrown o h = Some DuplicateFragment
   \/ thrown o h = Some OrderViolation)
  /\ (forall this, o = Stringify this -> thrown o h = None)
  /\ (forall l c r, o = Combine l c r -> thrown o h = None).
Proof.
  intros Hr Ho. pose proof (reachable_wf h Hr) as Hwf.
  assert (Hs : forall this, thrown (Stringify this) h = None).
  { intros this. unfold thrown. now rewrite stringify_wf. }
  assert (Hc : forall l c r, thrown (Combine l c r) h = None).
  { intros l c r. unfold thrown. now rewrite combine_spec. }
  split; [| split; intros; subst; auto].
  destruct o as [this c|this|l c r]; auto. cbn [receivers] in Ho.
  unfold thrown. destruct c as [v|v|v|v|v|v]; cbn [invoke].
  - unfold element, bind, read, fresh, write, ret, throw.
    destruct (truthy (get h this tag)); auto.
    destruct (truthy (get (alloc_obj h) this myId)); auto.
  - unfold id, bind, read, fresh, write, ret, throw.
    destruct (is_undefined (get h this pseudoElem)); cbn [negb fst]; auto.
    destruct (truthy (get h this myId)); cbn [fst]; auto.
    destruct (is_undefined (get h this classes)); cbn [negb fst]; auto.
    destruct (is_undefined (get h this pseudoClasses)); cbn [negb fst]; auto.
  - destruct (class_outcome h this v Hwf Ho) as [-> | [h1 ->]]; auto.
  - unfold attr, bind, read, write, ret, throw.
    destruct (is_undefined (get h this pseudoClasses)); cbn [negb fst]; auto.
  - destruct (pseudoClass_outcome h this v Hwf Ho) as [-> | [h1 ->]]; auto.
  - unfold pseudoElement, bind, read, write, ret, throw.
    destruct (truthy (get h this pseudoElem)); auto.
Qed.

Lemma reachable_div_main_and_span : reachable div_main_and_span.
Proof.
  change div_main_and_span
    with (perform (Invoke Builder (Element "span"))
            (perform (Invoke (Obj 0) (Id "main"))
               (perform (Invoke Builder (Element "div")) initial))).
  repeat apply reachable_step; try apply reachable_initial; try exact I.
  vm_compute. lia.
Qed.

Lemma only_documented_errors_example :
  thrown (Invoke (Obj 0) (Class "container")) div_main_and_span = None
  \/ thrown (Invoke (Obj 0) (Class "container")) div_main_and_span
     = Some DuplicateFragment
  \/ thrown (Invoke (Obj 0) (Class "container")) div_main_and_span
     = Some OrderViolation.
Proof.
  apply (only_documented_errors div_main_and_span (Invoke (Obj 0) (Class "container"))).
  - exact reachable_div_main_and_span.
  - vm_compute. lia.
Defined.

(** ** The shared builder *)

Lemma falsy_reset (h : heap) (x : ref) (f : field) :
  truthy (get h Builder f) = false -> truthy (get (reset h x) Builder f) = false.
Proof.
  intros H. destruct x as [|n].
  - now rewrite get_reset.
  - now rewrite get_reset_other by discriminate.
Qed.

Lemma falsy_perform (h : heap) (o : op) (f : field) :
  wf h -> bare h -> f = tag \/ f = myId \/ f = combination ->
  truthy (get h Builder f) = false ->
  truthy (get (perform o h) Builder f) = false.
Proof.
  intros Hwf (Bt & Bi & Bc) Hf H.
  assert (H1 : f <> classes) by (destruct Hf as [->|[->| ->]]; discriminate).
  assert (H2 : f <> pseudoClasses) by (destruct Hf as [->|[->| ->]]; discriminate).
  assert (H3 : f <> attribute) by (destruct Hf as [->|[->| ->]]; discriminate).
  assert (H4 : f <> pseudoElem) by (destruct Hf as [->|[->| ->]]; discriminate).
  destruct o as [this c|this|l c r]; cbn [perform].
  - destruct c as [v|v|v|v|v|v]; cbn [invoke].
    + now rewrite element_frame by exact I.
    + rewrite id_frame; [assumption | exact I |].
      destruct this as [|n]; [auto |]. right; right. split; discriminate.
    + now rewrite class_frame.
    + now rewrite attr_frame.
    + now rewrite pseudoClass_frame.
    + now rewrite pseudoElement_frame.
  - rewrite stringify_wf by assumption. now apply falsy_reset.
  - rewrite combine_spec by assumption. cbn [snd].
    rewrite get_assign_ref by discriminate. rewrite get_alloc_obj.
    now apply falsy_reset, falsy_reset.
Qed.

Lemma bare_perform (h : heap) (o : op) : wf h -> bare h -> bare (perform o h).
Proof.
  intros Hwf Hb. pose proof Hb as (Bt & Bi & Bc).
  repeat split; apply falsy_perform; auto.
Qed.

(** X9.  Whatever calls were made before, [cssSelectorBuilder] itself has no
    element, no id and no combination: [element], [id] and [combine] never
    write to it.  So [builder.element(value)] always returns a selector. *)
Theorem builder_stays_bare (h : heap) (value : string) :
  reachable h ->
  bare h /\ exists s h1, element Builder value h = (Ok s, h1).
Proof.
  intros Hr.
  assert (Hb : bare h).
  { induction Hr as [|h o Hr IH Ho]; [repeat split |].
    apply bare_perform; [now apply reachable_wf | exact IH]. }
  split; [exact Hb |]. destruct Hb as (Bt & Bi & _).
  eexists _, _. now apply element_run.
Qed.

Lemma reachable_attr_left_on_builder : reachable attr_left_on_builder.
Proof.
  change attr_left_on_builder
    with (perform (Invoke Builder (Element "span"))
            (perform (Invoke Builder (Element "div"))
               (perform (Invoke Builder (Attr "x")) initial))).
  repeat apply reachable_step; try apply reachable_initial; exact I.
Qed.

Lemma builder_stays_bare_example :
  bare attr_left_on_builder
  /\ exists s h1, element Builder "p" attr_left_on_builder = (Ok s, h1).
Proof.
  apply (builder_stays_bare attr_left_on_builder "p").
  exact reachable_attr_left_on_builder.
Defined.

Lemma render_reset_obj (h : heap) (n : nat) (r : ref) :
  Obj n <> r -> render (reset h (Obj n)) r = render h r.
Proof.
  intros Hr. unfold render. rewrite !get_reset_other by assumption.
  now rewrite !(part_arrays h (reset h (Obj n))) by apply arrays_reset.
Qed.

(** X10.  Rendering a selector that is not the builder changes no other
    selector: any other object, the builder included, renders afterwards as
    it would have rendered before. *)
Theorem stringify_leaves_others (h : heap) (n : nat) (r : ref) :
  wf h -> Obj n <> r ->
  fst (stringify r (snd (stringify (Obj n) h))) = fst (stringify r h).
Proof.
  intros Hwf Hr. rewrite (stringify_wf h (Obj n) Hwf). cbn [snd].
  rewrite (stringify_wf _ r (wf_reset h (Obj n) Hwf)), (stringify_wf h r Hwf).
  cbn [fst]. now rewrite render_reset_obj.
Qed.

Lemma stringify_leaves_others_example :
  fst (stringify (Obj 2) (snd (stringify (Obj 0) div_main_and_span))) = Ok "span".
Proof.
  rewrite (stringify_leaves_others div_main_and_span 0 (Obj 2));
    [reflexivity | reflexivity | discriminate].
Defined.

(** X11.  [stringify] called on the builder itself clears it: afterwards the
    builder carries no fragment, whatever was left on it. *)
Theorem stringify_cleans_builder (h : heap) :
  wf h ->
  exists s h1, stringify Builder h = (Ok s, h1) /\ pristine h1 /\ wf h1.
Proof.
  intros Hwf. exists (render h Builder), (reset h Builder).
  split; [now apply stringify_wf |]. split; [| now apply wf_reset].
  apply pristine_intro. intros f. now apply get_reset.
Qed.

Lemma stringify_cleans_builder_example :
  exists s h1,
    stringify Builder attr_left_on_builder = (Ok s, h1) /\ pristine h1 /\ wf h1.
Proof. apply (stringify_cleans_builder attr_left_on_builder). reflexivity. Defined.

(** ** One build after another *)

Lemma invoke_stays (h h1 : heap) (this s : ref) (c : call) :
  stays c = true -> invoke this c h = (Ok s, h1) -> s = this.
Proof.
  intros Hc R. destruct c as [v|v|v|v|v|v]; try discriminate Hc; cbn [invoke] in R.
  - unfold class, bind, read, new_array, write, push, ret, throw in R.
    destruct (truthy (get h this attribute)); [discriminate |].
    destruct (is_undefined (get h this classes)); cbv beta iota in R.
    + destruct (get (assign (alloc_arr h) this classes (VArr (length (arrays h))))
                  this classes) as [|x|a]; try discriminate.
      destruct (array_of _ a); [| discriminate]. now injection R as <- _.
    + destruct (get h this classes) as [|x|a]; try discriminate.
      destruct (array_of h a); [| discriminate]. now injection R as <- _.
  - unfold attr, bind, read, write, ret, throw in R.
    destruct (is_undefined (get h this pseudoClasses)); cbn [negb] in R;
      [| discriminate]. now injection R as <- _.
  - unfold pseudoClass, bind, read, new_array, write, push, ret, throw in R.
    destruct (truthy (get h this pseudoElem)); [discriminate |].
    destruct (is_undefined (get h this pseudoClasses)); cbv beta iota in R.
    + destruct (get (assign (alloc_arr h) this pseudoClasses (VArr (length (arrays h))))
                  this pseudoClasses) as [|x|a]; try discriminate.
      destruct (array_of _ a); [| discriminate]. now injection R as <- _.
    + destruct (get h this pseudoClasses) as [|x|a]; try discriminate.
      destruct (array_of h a); [| discriminate]. now injection R as <- _.
  - destruct (pseudoElement_inv _ _ _ _ _ R) as [-> _]. reflexivity.
Qed.

Lemma chain_cons_inv (h h1 : heap) (this s : ref) (c : call) (cs : list call) :
  chain this (c :: cs) h = (Ok s, h1) ->
  exists s0 h0, invoke this c h = (Ok s0, h0) /\ chain s0 cs h0 = (Ok s, h1).
Proof.
  cbn [chain]. unfold bind. destruct (invoke this c h) as [[s0|e] h0];
    [| discriminate]. intros R. now exists s0, h0.
Qed.

Lemma chain_stays (cs : list call) :
  forall (h h1 : heap) (this s : ref),
    forallb stays cs = true -> chain this cs h = (Ok s, h1) -> s = this.
Proof.
  induction cs as [|c cs IH]; intros h h1 this s Hs R.
  - now injection R as <- _.
  - cbn [forallb] in Hs. apply andb_true_iff in Hs as [Hc Hcs].
    destruct (chain_cons_inv _ _ _ _ _ _ R) as (s0 & h0 & R0 & R1).
    apply (invoke_stays _ _ _ _ _ Hc) in R0. subst s0. eauto.
Qed.

(** A call on an object that is not the builder leaves what the builder
    reads. *)
Lemma invoke_builder_reads (h : heap) (n : nat) (c : call) (f : field) :
  get (snd (invoke (Obj n) c h)) Builder f = get h Builder f.
Proof.
  destruct c as [v|v|v|v|v|v]; cbn [invoke].
  - now apply element_frame.
  - apply id_frame; [exact I |]. right; right. split; discriminate.
  - unfold class, bind, read, new_array, write, push, ret, throw.
    destruct (truthy (get h (Obj n) attribute)); [reflexivity |].
    destruct (is_undefined (get h (Obj n) classes)); cbv beta iota.
    + destruct (get (assign (alloc_arr h) (Obj n) classes (VArr (length (arrays h))))
                  (Obj n) classes) as [|x|a]; cbn [snd];
        try (now rewrite get_assign_ref by discriminate).
      destruct (array_of _ a); cbn [snd];
        rewrite ?get_assign_ref by discriminate; try rewrite get_push_arr;
        now rewrite ?get_assign_ref by discriminate.
    + destruct (get h (Obj n) classes) as [|x|a]; cbn [snd]; try reflexivity.
      destruct (array_of h a); cbn [snd]; [| reflexivity].
      now rewrite get_assign_ref by discriminate.
  - unfold attr, bind, read, write, ret, throw.
    destruct (is_undefined (get h (Obj n) pseudoClasses)); cbn [negb snd];
      [| reflexivity].
    now rewrite !get_assign_ref by discriminate.
  - unfold pseudoClass, bind, read, new_array, write, push, ret, throw.
    destruct (truthy (get h (Obj n) pseudoElem)); cbn [snd];
      [now rewrite get_assign_ref by discriminate |].
    destruct (is_undefined (get h (Obj n) pseudoClasses)); cbv beta iota.
    + destruct (get (assign (alloc_arr h) (Obj n) pseudoClasses (VArr (length (arrays h))))
                  (Obj n) pseudoClasses) as [|x|a]; cbn [snd];
        try (now rewrite get_assign_ref by discriminate).
      destruct (array_of _ a); cbn [snd]; try rewrite get_push_arr;
        now rewrite get_assign_ref by discriminate.
    + destruct (get h (Obj n) pseudoClasses) as [|x|a]; cbn [snd]; try reflexivity.
      destruct (array_of h a); reflexivity.
  - unfold pseudoElement, bind, read, write, ret, throw.
    destruct (truthy (get h (Obj n) pseudoElem)); cbn [snd]; [reflexivity |].
    now rewrite get_assign_ref by discriminate.
Qed.

Lemma invoke_returns_object (h h1 : heap) (this s : ref) (c : call) :
  invoke this c h = (Ok s, h1) ->
  this <> Builder \/ stays c = false -> truthy (get h Builder tag) = false ->
  s <> Builder.
Proof.
  intros R Hor Hb. destruct (stays c) eqn:Hc.
  - apply (invoke_stays _ _ _ _ _ Hc) in R. subst s.
    destruct Hor; [assumption | discriminate].
  - destruct c as [v|v|v|v|v|v]; try discriminate Hc; cbn [invoke] in R.
    + destruct (element_inv _ _ _ _ _ R) as (_ & _ & -> & _). discriminate.
    + destruct (id_inv _ _ _ _ _ R) as (_ & _ & _ & _ & -> & _).
      destruct (truthy (get h this tag)) eqn:Et; [| discriminate].
      intros ->. congruence.
Qed.

Lemma chain_on_object (cs : list call) :
  forall (h h1 : heap) (n : nat) (s : ref),
    truthy (get h Builder tag) = false ->
    chain (Obj n) cs h = (Ok s, h1) ->
    forall f, get h1 Builder f = get h Builder f.
Proof.
  induction cs as [|c cs IH]; intros h h1 n s Hb R f.
  - now injection R as _ <-.
  - destruct (chain_cons_inv _ _ _ _ _ _ R) as (s0 & h0 & R0 & R1).
    assert (G : forall g, get h0 Builder g = get h Builder g).
    { intros g. rewrite <- (invoke_builder_reads h n c g). now rewrite R0. }
    assert (Hs0 : s0 <> Builder).
    { apply (invoke_returns_object _ _ _ _ _ R0); [left; discriminate | exact Hb]. }
    destruct s0 as [|m]; [congruence |].
    rewrite (IH h0 h1 m s); auto. now rewrite G.
Qed.

Lemma forallb_stays_rest (x : fragments) :
  forallb stays (map Class (the_classes x) ++ once (the_attribute x) Attr
                 ++ map PseudoClass (the_pseudoClasses x)
                 ++ once (the_pseudoElement x) PseudoElement) = true.
Proof.
  rewrite !forallb_app. repeat (apply andb_true_iff; split).
  - induction (the_classes x); simpl; auto.
  - destruct (the_attribute x); reflexivity.
  - induction (the_pseudoClasses x); simpl; auto.
  - destruct (the_pseudoElement x); reflexivity.
Qed.

(** The builder carries no fragment after the chain for [x] was made on it
    and the selector rendered. *)
Lemma pristine_after_chain (h h1 : heap) (x : fragments) (s : ref) :
  pristine h -> chain Builder (calls_of x) h = (Ok s, h1) ->
  pristine (reset h1 s).
Proof.
  intros Hp R.
  assert (Hobj : forall c cs, calls_of x = c :: cs -> stays c = false ->
                 pristine (reset h1 s)).
  { intros c cs E Hc. rewrite E in R.
    destruct (chain_cons_inv _ _ _ _ _ _ R) as (s0 & h0 & R0 & R1).
    assert (Hs0 : s0 <> Builder).
    { apply (invoke_returns_object _ _ _ _ _ R0); [now right |].
      now rewrite pristine_get. }
    assert (G0 : forall f, get h0 Builder f = VUndef).
    { intros f. replace h0 with (snd (invoke Builder c h)) by now rewrite R0.
      rewrite <- (pristine_get h f Hp).
      destruct c as [v|v|v|v|v|v]; try discriminate Hc; cbn [invoke].
      - now apply element_frame.
      - apply id_frame; [exact I |]. right; left. now rewrite pristine_get. }
    destruct s0 as [|m]; [congruence |].
    apply pristine_reset, pristine_intro. intros f.
    rewrite (chain_on_object cs h0 h1 m s); auto. now rewrite G0. }
  unfold calls_of in *.
  destruct (the_element x) as [e|]; [now apply (Hobj _ _ eq_refl) |].
  destruct (the_id x) as [i|]; [now apply (Hobj _ _ eq_refl) |].
  cbn [once app] in R.
  apply (chain_stays _ _ _ _ _ (forallb_stays_rest x)) in R. subst s.
  apply pristine_intro. intros f. now apply get_reset.
Qed.

Lemma build_ok (h : heap) (x : fragments) :
  pristine h -> the_id x <> Some EmptyString ->
  exists h', build x h = (Ok (render_fragments x), h') /\ pristine h'.
Proof.
  intros Hp Hid.
  destruct (chain_calls_of h x Hp Hid) as (s & h1 & R & T & I & C & A & P & E & K).
  exists (reset h1 s). split; [| now apply (pristine_after_chain h h1 x)].
  unfold build. rewrite (bind_ok _ _ _ _ _ R).
  rewrite (stringify_shows _ _ _ _ _ _ _ _ _ T I C A P E K).
  unfold render_fragments. now rewrite append_nil_r.
Qed.

(** X12.  Builds do not disturb each other: started on a builder that carries
    no fragment, any number of chains in the order of the grammar, each
    rendered before the next is started, render each as its own fragments,
    and leave the builder carrying no fragment. *)
Theorem builds_render_each (xs : list fragments) (h : heap) :
  pristine h -> Forall (fun x => the_id x <> Some EmptyString) xs ->
  exists h', builds xs h = (Ok (map render_fragments xs), h') /\ pristine h'.
Proof.
  intros Hp Hxs. revert h Hp. induction Hxs as [|x xs Hx Hxs IH]; intros h Hp.
  - exists h. split; [reflexivity | exact Hp].
  - destruct (build_ok h x Hp Hx) as (h0 & R0 & Hp0).
    destruct (IH h0 Hp0) as (h' & R & Hp').
    exists h'. split; [| exact Hp']. cbn [builds map].
    rewrite (bind_ok _ _ _ _ _ R0), (bind_ok _ _ _ _ _ R). reflexivity.
Qed.

Lemma builds_render_each_example :
  exists h',
    builds [mkFragments None None ["warning"] None [] None;
            mkFragments (Some "li") (Some "main") [] None ["hover"] (Some "after");
            mkFragments None None [] (Some "href") [] None] initial
    = (Ok [".warning"; "li#main:hover::after"; "[href]"], h')
    /\ pristine h'.
Proof.
  apply (builds_render_each
           [mkFragments None None ["warning"] None [] None;
            mkFragments (Some "li") (Some "main") [] None ["hover"] (Some "after");
            mkFragments None None [] (Some "href") [] None] initial).
  - reflexivity.
  - repeat constructor; discriminate.
Defined.

(** ** What is left on the builder *)





(** The nested [combine] of the documentation. *)
Example doc_nested_combine :
  run (a <- chain Builder [Element "div"; Id "main"; Class "container"; Class "draggable"] ;;
       b <- chain Builder [Element "table"; Id "data"] ;;
       c <- chain Builder [Element "tr"; PseudoClass "nth-of-type(even)"] ;;
       d <- chain Builder [Element "td"; PseudoClass "nth-of-type(even)"] ;;
       cd <- combine c " " d ;;
       bcd <- combine b "~" cd ;;
       abcd <- combine a "+" bcd ;;
       stringify abcd)
  = Ok "div#main.container.draggable + table#data ~ tr:nth-of-type(even)   td:nth-of-type(even)".
Proof. reflexivity. Qed.

(** ** The orderings that are enforced *)

Lemma class_inv_classes (h h1 : heap) (this s : ref) (value : string) :
  class this value h = (Ok s, h1) ->
  s = this /\ is_undefined (get h1 this classes) = false.
Proof.
  intros R. split; [now apply (invoke_stays h h1 this s (Class value)) |].
  unfold class, bind, read, new_array, write, push, ret, throw in R.
  destruct (truthy (get h this attribute)); [discriminate |].
  destruct (is_undefined (get h this classes)); cbv beta iota in R.
  - destruct (get (assign (alloc_arr h) this classes (VArr (length (arrays h))))
                this classes) as [|x|a] eqn:E; try discriminate.
    destruct (array_of _ a); [| discriminate]. injection R as _ <-.
    rewrite get_assign_field by discriminate. rewrite get_push_arr. now rewrite E.
  - destruct (get h this classes) as [|x|a] eqn:E; try discriminate.
    destruct (array_of h a); [| discriminate]. injection R as _ <-.
    rewrite get_assign_field by discriminate. rewrite get_push_arr. now rewrite E.
Qed.

Lemma pseudoClass_inv_pseudoClasses (h h1 : heap) (this s : ref) (value : string) :
  pseudoClass this value h = (Ok s, h1) ->
  s = this /\ is_undefined (get h1 this pseudoClasses) = false.
Proof.
  intros R. split; [now apply (invoke_stays h h1 this s (PseudoClass value)) |].
  unfold pseudoClass, bind, read, new_array, write, push, ret, throw in R.
  destruct (truthy (get h this pseudoElem)); [discriminate |].
  destruct (is_undefined (get h this pseudoClasses)); cbv beta iota in R.
  - destruct (get (assign (alloc_arr h) this pseudoClasses (VArr (length (arrays h))))
                this pseudoClasses) as [|x|a] eqn:E; try discriminate.
    destruct (array_of _ a); [| discriminate]. injection R as _ <-.
    rewrite get_push_arr. now rewrite E.
  - destruct (get h this pseudoClasses) as [|x|a] eqn:E; try discriminate.
    destruct (array_of h a); [| discriminate]. injection R as _ <-.
    rewrite get_push_arr. now rewrite E.
Qed.

Lemma attr_inv (h h1 : heap) (this s : ref) (value : string) :
  attr this value h = (Ok s, h1) ->
  s = this
  /\ h1 = assign (assign (assign h this attribute (VStr ("[" ++ value ++ "]")))
                    this pseudoClasses VUndef) this pseudoElem VUndef.
Proof.
  unfold attr, bind, read, write, ret, throw.
  destruct (is_undefined (get h this pseudoClasses)); cbn [negb]; [| discriminate].
  intros [= <- <-]. auto.
Qed.

(** X15.  The five orderings the builder enforces, on the selector a call
    returned: after [attr], [class] throws the order error; after
    [pseudoClass], [attr] throws it; after [pseudoElement], [pseudoClass] and
    [id] throw it; after [class], [id] throws it, or the duplicate error when
    the selector has an id and no pseudo-element; after [id] with a
    non-empty value, [element] throws it, or the duplicate error when the
    selector has an element. *)
Theorem enforced_orderings
  (h h1 : heap) (this s : ref) (value next : string) :
  allocated h this ->
  (attr this value h = (Ok s, h1) ->
   fst (class s next h1) = Throw OrderViolation)
  /\ (pseudoClass this value h = (Ok s, h1) ->
      fst (attr s next h1) = Throw OrderViolation)
  /\ (pseudoElement this value h = (Ok s, h1) ->
      fst (pseudoClass s next h1) = Throw OrderViolation
      /\ fst (id s next h1) = Throw OrderViolation)
  /\ (class this value h = (Ok s, h1) ->
      fst (id s next h1)
      = Throw (if is_undefined (get h1 s pseudoElem) && truthy (get h1 s myId)
               then DuplicateFragment else OrderViolation))
  /\ (id this value h = (Ok s, h1) -> value <> EmptyString ->
      fst (element s next h1)
      = Throw (if truthy (get h1 s tag) then DuplicateFragment else OrderViolation)).
Proof.
  intros Ha. split; [| split; [| split; [| split]]].
  - intros R. destruct (attr_inv _ _ _ _ _ R) as [-> ->].
    unfold class, bind, read.
    rewrite !get_assign_field by discriminate.
    now rewrite get_assign_same.
  - intros R. destruct (pseudoClass_inv_pseudoClasses _ _ _ _ _ R) as [-> E].
    unfold attr, bind, read. now rewrite E.
  - intros R. destruct (pseudoElement_inv _ _ _ _ _ R) as [-> ->].
    split.
    + unfold pseudoClass, bind, read. now rewrite get_assign_same.
    + unfold id, bind, read. now rewrite get_assign_same.
  - intros R. destruct (class_inv_classes _ _ _ _ _ R) as [-> E].
    unfold id, bind, read.
    destruct (is_undefined (get h1 this pseudoElem)); cbn [negb andb]; [| reflexivity].
    destruct (truthy (get h1 this myId)); [reflexivity |].
    now rewrite E.
  - intros R Hv. destruct (id_inv _ _ _ _ _ R) as (_ & _ & _ & _ & Hs & ->).
    assert (Hs' : allocated (alloc_obj h) s).
    { rewrite Hs. destruct (truthy (get h this tag));
        [allocated_tac | apply allocated_fresh]. }
    unfold element, bind, read, fresh.
    destruct (truthy (get (assign (alloc_obj h) s myId (VStr value)) s tag));
      [reflexivity |].
    rewrite get_alloc_obj, get_assign_same by assumption.
    destruct value; [congruence | reflexivity].
Qed.

Lemma enforced_orderings_example :
  fst (class (Obj 0) "x" (snd (attr (Obj 0) "href" div_main_and_span)))
  = Throw OrderViolation
  /\ fst (id (Obj 2) "x" (snd (class (Obj 2) "big" div_main_and_span)))
     = Throw OrderViolation.
Proof.
  split.
  - apply (proj1 (enforced_orderings div_main_and_span
                    (snd (attr (Obj 0) "href" div_main_and_span))
                    (Obj 0) (Obj 0) "href" "x" ltac:(vm_compute; lia))).
    reflexivity.
  - apply (proj1 (proj2 (proj2 (proj2
             (enforced_orderings div_main_and_span
                (snd (class (Obj 2) "big" div_main_and_span))
                (Obj 2) (Obj 2) "big" "x" ltac:(vm_compute; lia)))))).
    reflexivity.
Defined.
